(** * URL checker: the probing engine of [urlchecker.py]

    A shallow embedding of [URLChecker.check_url], [URLChecker.process_batch]
    and [URLChecker.process_urls], and the properties of the probe, the
    permit pool, the dispatcher and the aggregator.

    Conventions:
    - a Python [int] is a [Z]; a [str] is a [string] (one [ascii] per
      character); [None] in a slot that may hold a value is [option];
    - a raised exception is the left summand of [exn + A];
    - a coroutine is a tree of [Await] nodes, one per network call; the
      event loop is a step relation that advances one task at a time. *)

From Stdlib Require Import ZArith Ascii String List Lia Bool.
From stdpp Require Import base option list strings gmap sorting.

Local Open Scope Z_scope.

(** ** Python values *)

(** Truth value of a [str]: the empty string is false. *)
Definition truthy (s : string) : bool :=
  match s with
  | EmptyString => false
  | String _ _ => true
  end.

(** [s[:n]] on a string. *)
Definition str_prefix (n : nat) (s : string) : string := substring 0 n s.

(** [size or 0] for a slot holding [None] or an int. *)
Definition or_zero (size : option Z) : Z :=
  match size with
  | Some n => if n =? 0 then 0 else n
  | None => 0
  end.

(** ** Exceptions

    The classes the handlers of [check_url] tell apart.  All of them derive
    from [Exception]; what derives from [BaseException] only (cancellation
    of the task, interruption of the interpreter) ends the whole run and
    is not modelled.  [asyncio.TimeoutError] is what the total timer of a
    request raises; [ServerTimeoutError] is aiohttp's socket-level timeout,
    which is both a [ClientError] and an [asyncio.TimeoutError];
    [ClientConnectorError] and [ClientResponseError] are [ClientError]s;
    [ClientError] stands for the remaining ones. *)

Inductive exc_class :=
  | TimeoutError
  | ServerTimeoutError
  | ClientConnectorError
  | ClientResponseError
  | ClientError
  | ValueError
  | OtherException.

Record exn := Exn { exc_type : exc_class; exc_str : string }.

(** [isinstance(e, asyncio.TimeoutError)] *)
Definition is_TimeoutError (e : exn) : bool :=
  match exc_type e with
  | TimeoutError | ServerTimeoutError => true
  | _ => false
  end.

(** [isinstance(e, aiohttp.ClientError)] *)
Definition is_ClientError (e : exn) : bool :=
  match exc_type e with
  | ServerTimeoutError | ClientConnectorError | ClientResponseError
  | ClientError => true
  | _ => false
  end.

(** [isinstance(e, aiohttp.ClientResponseError)] *)
Definition is_ClientResponseError (e : exn) : bool :=
  match exc_type e with
  | ClientResponseError => true
  | _ => false
  end.

(** [isinstance(e, aiohttp.ClientConnectorError)] *)
Definition is_ClientConnectorError (e : exn) : bool :=
  match exc_type e with
  | ClientConnectorError => true
  | _ => false
  end.

(** [isinstance(e, Exception)] *)
Definition is_Exception (e : exn) : bool := true.

(** ** The transport *)

Inductive method := HEAD | GET.

Record request := Request {
  req_method : method;
  req_url : string;
  req_timeout : Z;            (* ClientTimeout(total=...) *)
  req_allow_redirects : bool
}.

Record response := Response {
  resp_status : Z;
  resp_content_length : option string   (* headers.get('Content-Length') *)
}.

(** What awaiting a request gives: a response, or a raised exception. *)
Definition reply : Type := exn + response.

(** The network seen by one probe: the reply to its [n]-th request. *)
Definition transport : Type := nat → request → reply.

(** ** Coroutines *)

Inductive coro (A : Type) : Type :=
  | Ret (a : A)
  | Await (rq : request) (k : reply → coro A).
Arguments Ret {A} a.
Arguments Await {A} rq k.

(** A coroutine that may raise. *)
Definition io (A : Type) : Type := coro (exn + A).

Definition io_ret {A} (a : A) : io A := Ret (inr a).

Fixpoint io_bind {A B} (m : io A) (f : A → io B) : io B :=
  match m with
  | Ret (inr a) => f a
  | Ret (inl e) => Ret (inl e)
  | Await rq k => Await rq (λ rep, io_bind (k rep) f)
  end.

Notation "'let*' x ':=' m 'in' k" := (io_bind m (λ x, k))
  (at level 10, x binder, k at level 200).

(** [await session.<method>(...)]: an exception reply is raised here. *)
Definition await_request (rq : request) : io response :=
  Await rq (λ rep, Ret rep).

(** [try: m  except C1: h1  except C2: h2 ...]: the first clause whose
    class test accepts the exception handles it; an exception raised by a
    handler is not seen by the other clauses. *)
Definition except_clause (A : Type) : Type := (exn → bool) * (exn → io A).

Fixpoint try_except {A} (m : io A) (clauses : list (except_clause A)) : io A :=
  match m with
  | Ret (inr a) => Ret (inr a)
  | Ret (inl e) =>
      match List.find (λ c : except_clause A, fst c e) clauses with
      | Some c => snd c e
      | None => Ret (inl e)
      end
  | Await rq k => Await rq (λ rep, try_except (k rep) clauses)
  end.

(** Running a coroutine against a transport, from request number [n]. *)
Fixpoint exec {A} (send : transport) (n : nat) (c : coro A) : A :=
  match c with
  | Ret a => a
  | Await rq k => exec send (S n) (k (send n rq))
  end.

(** The requests it issues, in order. *)
Fixpoint requests {A} (send : transport) (n : nat) (c : coro A) : list request :=
  match c with
  | Ret _ => []
  | Await rq k => rq :: requests send (S n) (k (send n rq))
  end.

(** ** The probe: [URLChecker.check_url]

    The verbose [print] and [pbar.update(1)], which every exit of
    [check_url] performs once, write nothing that the outcome or the
    result set reads; they are left out. *)

(** The command-line arguments the engine reads ([self.args]). *)
Record Args := {
  args_timeout : Z;
  args_concurrency : Z;
  args_include : option string
}.

(** The dict a probe returns, keys ['url'], ['status'], ['size'],
    ['error']. *)
Record result := Result {
  res_url : string;
  res_status : option Z;
  res_size : option Z;
  res_error : option string
}.

Section Probe.

(** The builtin [int] applied to a [str]: the integer, or the message of
    the [ValueError] it raises. *)
Variable py_int : string → Z + string.

Variable args : Args.

Definition head_request (url : string) : request :=
  Request HEAD url (args_timeout args) false.

Definition get_request (url : string) : request :=
  Request GET url (args_timeout args) false.

(** [int(content_length) if content_length else None]: the size, or the
    [ValueError] that [int] raises. *)
Definition size_of (content_length : option string) : exn + option Z :=
  match content_length with
  | Some s =>
      if truthy s then
        match py_int s with
        | inl n => inr (Some n)
        | inr msg => inl (Exn ValueError msg)
        end
      else inr None
  | None => inr None
  end.

(** [status in [405, 501]] *)
Definition method_refused (status : Z) : bool :=
  (status =? 405) || (status =? 501).

(** The body of the inner [try]. *)
Definition head_attempt (url : string) : io (Z * option Z) :=
  let* response := await_request (head_request url) in
  let status := resp_status response in
  if method_refused status then
    let* get_response := await_request (get_request url) in
    let status := resp_status get_response in
    let* size := Ret (size_of (resp_content_length get_response)) in
    io_ret (status, size)
  else
    let* size := Ret (size_of (resp_content_length response)) in
    io_ret (status, size).

(** The handler of the inner [try]. *)
Definition get_fallback (url : string) : io (Z * option Z) :=
  let* response := await_request (get_request url) in
  let status := resp_status response in
  let* size := Ret (size_of (resp_content_length response)) in
  io_ret (status, size).

(** The inner [try ... except (ClientResponseError, ClientError)]. *)
Definition settle (url : string) : io (Z * option Z) :=
  try_except (head_attempt url)
    [ (λ e, is_ClientResponseError e || is_ClientError e,
       λ _, get_fallback url) ].

(** The body of the outer [try], up to its [return]. *)
Definition probe_body (url : string) : io result :=
  let* '(status, size) := settle url in
  io_ret (Result url (Some status) (Some (or_zero size)) None).

Definition error_result (url : string) (error : string) : result :=
  Result url None None (Some error).

(** The three [except] clauses of the outer [try], in source order. *)
Definition probe_handlers (url : string) : list (except_clause result) :=
  [ (is_TimeoutError,
     λ _, io_ret (error_result url "Timeout"));
    (is_ClientConnectorError,
     λ e, io_ret (error_result url
                    ("DNS/Connection: " +:+ str_prefix 100 (exc_str e))));
    (is_Exception,
     λ e, io_ret (error_result url
                    ("Error: " +:+ str_prefix 100 (exc_str e)))) ].

Definition check_url (url : string) : io result :=
  try_except (probe_body url) (probe_handlers url).

End Probe.

(** ** The event loop: tasks gated by [asyncio.Semaphore] and joined by
    [asyncio.gather] *)

(** How a call ends: it returns, it raises, or it never returns. *)
Inductive outcome (A : Type) : Type :=
  | Completed (a : A)
  | Raised (e : exn)
  | Hangs.
Arguments Completed {A} a.
Arguments Raised {A} e.
Arguments Hangs {A}.

(** One [bounded_check] task: suspended in [async with semaphore], inside
    the guarded call (having issued [n] requests), or finished with the
    value it returned or the exception it raised. *)
Inductive task : Type :=
  | Waiting (u : string)
  | Running (n : nat) (c : io result)
  | Done (v : exn + result).

(** The semaphore's counter and the tasks of the batch, in creation order. *)
Record loop := Loop { permits : Z; tasks : list task }.

Section EventLoop.

(** The guarded coroutine and the network. *)
Variable body : string → io result.
Variable send : transport.

(** One move of one task against a semaphore holding [p] permits:
    acquire, receive the reply to the request in flight, or leave the
    [async with] block (on return or on exception) and release. *)
Definition step_task (p : Z) (t : task) : option (Z * task) :=
  match t with
  | Waiting u => if 0 <? p then Some (p - 1, Running 0 (body u)) else None
  | Running n (Await rq k) => Some (p, Running (S n) (k (send n rq)))
  | Running n (Ret v) => Some (p + 1, Done v)
  | Done _ => None
  end.

(** The loop advances any task that can move. *)
Inductive step : loop → loop → Prop :=
  | step_at (s : loop) (i : nat) (t t' : task) (p' : Z) :
      tasks s !! i = Some t →
      step_task (permits s) t = Some (p', t') →
      step s (Loop p' (<[i := t']> (tasks s))).

(** A deterministic schedule: advance the first task that can move. *)
Fixpoint tick_tasks (p : Z) (ts : list task) : option (Z * list task) :=
  match ts with
  | [] => None
  | t :: ts' =>
      match step_task p t with
      | Some (p', t') => Some (p', t' :: ts')
      | None =>
          match tick_tasks p ts' with
          | Some (p', ts'') => Some (p', t :: ts'')
          | None => None
          end
      end
  end.

Definition tick (s : loop) : option loop :=
  match tick_tasks (permits s) (tasks s) with
  | Some (p', ts') => Some (Loop p' ts')
  | None => None
  end.

Fixpoint drive (fuel : nat) (s : loop) : loop :=
  match fuel with
  | O => s
  | S fuel' =>
      match tick s with
      | Some s' => drive fuel' s'
      | None => s
      end
  end.

(** Requests a coroutine still has to await. *)
Fixpoint awaits {A} (n : nat) (c : coro A) : nat :=
  match c with
  | Ret _ => O
  | Await rq k => S (awaits (S n) (k (send n rq)))
  end.

(** Moves a task still has to make. *)
Definition weight (t : task) : nat :=
  match t with
  | Waiting u => S (S (awaits 0 (body u)))
  | Running n c => S (awaits n c)
  | Done _ => O
  end.

Definition total_weight (ts : list task) : nat :=
  list_sum (map weight ts).

(** The value a task ends with, whatever the schedule. *)
Definition final_of (t : task) : exn + result :=
  match t with
  | Waiting u => exec send 0 (body u)
  | Running n c => exec send n c
  | Done v => v
  end.

(** The values of finished tasks as [gather] hands them over. *)
Fixpoint join_all (vs : list (exn + result)) : exn + list result :=
  match vs with
  | [] => inr []
  | inl e :: _ => inl e
  | inr r :: vs' =>
      match join_all vs' with
      | inr rs => inr (r :: rs)
      | inl e => inl e
      end
  end.

Definition is_done (t : task) : bool :=
  match t with
  | Done _ => true
  | _ => false
  end.

(** [asyncio.gather] over the tasks: once every task has finished, their
    values in task order, or the exception of the first task that raised.
    ([gather] re-raises as soon as a task raises; no task of this program
    does.) *)
Definition gather (ts : list task) : option (exn + list result) :=
  if forallb is_done ts then Some (join_all (map final_of ts)) else None.

(** Tasks holding a permit, and tasks with a request in flight. *)
Definition holds_permit (t : task) : bool :=
  match t with
  | Running _ _ => true
  | _ => false
  end.

Definition in_flight (t : task) : bool :=
  match t with
  | Running _ (Await _ _) => true
  | _ => false
  end.

Definition count (f : task → bool) (ts : list task) : Z :=
  Z.of_nat (length (List.filter f ts)).

Definition spawn (urls : list string) : list task := map Waiting urls.

(** What every state of a batch satisfies: the permits are conserved
    between the pool and the running tasks, and each task still ends with
    the value its coroutine computes. *)
Definition loop_inv (K : Z) (vs : list (exn + result)) (s : loop) : Prop :=
  0 ≤ permits s ∧
  permits s + count holds_permit (tasks s) = K ∧
  map final_of (tasks s) = vs.

(** The body of [process_batch], on a semaphore holding [sem] permits:
    the gathered results and the semaphore's counter afterwards. *)
Definition run_batch (sem : Z) (urls : list string)
  : outcome (list result * Z) :=
  let s := drive (total_weight (spawn urls)) (Loop sem (spawn urls)) in
  match gather (tasks s) with
  | Some (inr rs) => Completed (rs, permits s)
  | Some (inl e) => Raised e
  | None => Hangs
  end.

End EventLoop.

(** ** Sequences and strings of the dispatcher *)

(** [range(0, stop, step)] *)
Definition py_range (stop step : nat) : list nat :=
  map (λ k, k * step)%nat (seq 0 ((stop + step - 1) / step)%nat).

(** [l[i:j]] for [i <= j] *)
Definition slice {A} (l : list A) (i j : nat) : list A :=
  take (j - i)%nat (drop i l).

(** [str.isspace] on one ASCII character *)
Definition is_space (c : ascii) : bool :=
  let n := nat_of_ascii c in
  ((9 <=? n) && (n <=? 13) || (28 <=? n) && (n <=? 32))%nat.

Fixpoint lstrip (s : string) : string :=
  match s with
  | String c s' => if is_space c then lstrip s' else s
  | EmptyString => EmptyString
  end.

Fixpoint rstrip (s : string) : string :=
  match s with
  | String c s' =>
      match rstrip s' with
      | EmptyString => if is_space c then EmptyString else String c EmptyString
      | r => String c r
      end
  | EmptyString => EmptyString
  end.

(** [s.strip()] *)
Definition strip (s : string) : string := rstrip (lstrip s).

(** [s.split(sep)] for a one-character separator *)
Fixpoint split_on (sep : ascii) (s : string) : list string :=
  match s with
  | EmptyString => [EmptyString]
  | String c s' =>
      if Ascii.eqb c sep then EmptyString :: split_on sep s'
      else
        match split_on sep s' with
        | h :: t => String c h :: t
        | [] => [String c EmptyString]
        end
  end.

(** ** The aggregator and [URLChecker.process_urls] *)

(** The fields of [self] the run writes: [self.results], [self.errors] and
    the counters of [self.stats]. *)
Record URLChecker := Checker {
  results : gmap Z (gmap (option Z) (list string));
  errors : list result;
  stats_total : Z;
  stats_valid : Z;
  stats_errors : Z
}.

(** [URLChecker.__init__] *)
Definition init : URLChecker := Checker ∅ [] 0 0 0.

(** [{200} | set(range(300, 400)) | {403}] *)
Definition default_status_codes : gset Z :=
  {[ 200 ]} ∪ list_to_set (map Z.of_nat (seq 300 100)) ∪ {[ 403 ]}.

Definition batch_size : nat := 1000.

(** [if result['error']] *)
Definition has_error (r : result) : bool :=
  match res_error r with
  | Some e => truthy e
  | None => false
  end.

(** [self.results[status][size]], reading through both [defaultdict]s *)
Definition bucket (rs : gmap Z (gmap (option Z) (list string)))
    (status : Z) (size : option Z) : list string :=
  default [] (default ∅ (rs !! status) !! size).

(** [self.results[status][size].append(url)] *)
Definition bucket_append (rs : gmap Z (gmap (option Z) (list string)))
    (status : Z) (size : option Z) (url : string)
    : gmap Z (gmap (option Z) (list string)) :=
  <[ status := <[ size := bucket rs status size ++ [url] ]>
                 (default ∅ (rs !! status)) ]> rs.

(** The body of [for result in results]. *)
Definition fold_result (codes : gset Z) (self : URLChecker) (r : result)
    : URLChecker :=
  let total := stats_total self + 1 in
  if has_error r then
    Checker (results self) (errors self ++ [r])
            total (stats_valid self) (stats_errors self + 1)
  else
    match res_status r with
    | Some status =>
        if bool_decide (status ∈ codes) then
          Checker (bucket_append (results self) status (res_size r) (res_url r))
                  (errors self) total (stats_valid self + 1) (stats_errors self)
        else
          Checker (results self) (errors self)
                  total (stats_valid self) (stats_errors self)
    | None =>
        (* [None in included_codes] is false *)
        Checker (results self) (errors self)
                total (stats_valid self) (stats_errors self)
    end.

(** [result['status'] in included_codes] *)
Definition accepted (codes : gset Z) (r : result) : bool :=
  match res_status r with
  | Some s => bool_decide (s ∈ codes)
  | None => false
  end.

(** A Success with an accepted status; a Success with another status; a
    Success that lands in the bucket [status], [size]. *)
Definition is_valid (codes : gset Z) (r : result) : bool :=
  negb (has_error r) && accepted codes r.

Definition is_rejected (codes : gset Z) (r : result) : bool :=
  negb (has_error r) && negb (accepted codes r).

Definition lands_in (codes : gset Z) (status : Z) (size : option Z)
    (r : result) : bool :=
  is_valid codes r && bool_decide (res_status r = Some status)
  && bool_decide (res_size r = size).

(** How many outcomes of a sequence satisfy a test. *)
Definition tally (f : result → bool) (rs : list result) : Z :=
  Z.of_nat (length (List.filter f rs)).

Section Run.

Variable py_int : string → Z + string.
Variable args : Args.
Variable send : transport.

(** [URLChecker.process_batch] *)
Definition process_batch (sem : Z) (urls : list string)
  : outcome (list result * Z) :=
  run_batch (check_url py_int args) send sem urls.

(** The chunks [urls[i:i + batch_size]] for [i] in
    [range(0, len(urls), batch_size)]. *)
Definition batches (urls : list string) : list (list string) :=
  map (λ i, slice urls i (i + batch_size)) (py_range (length urls) batch_size).

(** The loop over the batches: each batch is awaited before the next one
    starts, and its results extend [all_results]. *)
Fixpoint dispatch (sem : Z) (all_results : list result)
    (bs : list (list string)) : outcome (list result) :=
  match bs with
  | [] => Completed all_results
  | batch :: bs' =>
      match process_batch sem batch with
      | Completed (batch_results, sem') =>
          dispatch sem' (all_results ++ batch_results) bs'
      | Raised e => Raised e
      | Hangs => Hangs
      end
  end.

(** [asyncio.Semaphore(value)] refuses a negative value. *)
Definition Semaphore (value : Z) : exn + Z :=
  if value <? 0 then inl (Exn ValueError "Semaphore initial value must be >= 0")
  else inr value.

(** The first half of [process_urls]: the outcomes of all probes. *)
Definition collect (urls : list string) : outcome (list result) :=
  match Semaphore (args_concurrency args) with
  | inl e => Raised e
  | inr semaphore => dispatch semaphore [] (batches urls)
  end.

(** [included_codes]: the defaults and every item of [--include] that
    [int] accepts. *)
Definition included_codes : gset Z :=
  match args_include args with
  | Some include =>
      if truthy include then
        foldl (λ codes code,
                 match py_int (strip code) with
                 | inl n => codes ∪ {[ n ]}
                 | inr _ => codes
                 end)
              default_status_codes (split_on "," include)
      else default_status_codes
  | None => default_status_codes
  end.

(** [URLChecker.process_urls].  The two time stamps and the progress bar
    are left out; the connector's limit is the semaphore's and never binds
    before it. *)
Definition process_urls (self : URLChecker) (urls : list string)
  : outcome URLChecker :=
  match collect urls with
  | Completed rs => Completed (foldl (fold_result included_codes) self rs)
  | Raised e => Raised e
  | Hangs => Hangs
  end.

End Run.

(** ** A decimal reader and some networks, for the examples *)

Definition digit_of (c : ascii) : option Z :=
  let n := nat_of_ascii c in
  if ((48 <=? n) && (n <=? 57))%nat then Some (Z.of_nat (n - 48)) else None.

(** Digits, with single underscores between them. *)
Fixpoint digits_value (acc : Z) (s : string) : option Z :=
  match s with
  | EmptyString => Some acc
  | String c s' =>
      match digit_of c with
      | Some d => digits_value (10 * acc + d) s'
      | None =>
          if Ascii.eqb c "_" then
            match s' with
            | String c' _ =>
                if is_Some_dec (digit_of c') then digits_value acc s' else None
            | EmptyString => None
            end
          else None
      end
  end.

(** An instance of [py_int]: the builtin [int] on the decimal literals of
    plain text (surrounding blanks, a sign, digits); the message is the
    builtin's for text without quotes or escapes. *)
Definition int_decimal (s : string) : Z + string :=
  let bad := inr ("invalid literal for int() with base 10: '" +:+ s +:+ "'") in
  let t := strip s in
  let '(neg, ds) :=
    match t with
    | String "-" r => (true, r)
    | String "+" r => (false, r)
    | _ => (false, t)
    end in
  match ds with
  | EmptyString => bad
  | String c _ =>
      if is_Some_dec (digit_of c) then
        match digits_value 0 ds with
        | Some n => inl (if neg then - n else n)
        | None => bad
        end
      else bad
  end.

(** The arguments' defaults: [--concurrency 20], [--timeout 10]. *)
Definition default_args : Args := Build_Args 10 20 None.

(** A network for the examples: what each address answers.  [a], [b], [c]
    and [d] are the end-to-end scenario of the specification. *)
Definition example_net : transport := λ _ rq,
  let url := req_url rq in
  if String.eqb url "http://a" then inr (Response 200 (Some "120"))
  else if String.eqb url "http://b" then inr (Response 404 None)
  else if String.eqb url "http://c" then inl (Exn TimeoutError "")
  else if String.eqb url "http://d" then inr (Response 301 (Some "0"))
  else if String.eqb url "http://e" then
    match req_method rq with
    | HEAD => inr (Response 405 None)
    | GET => inr (Response 200 (Some "512"))
    end
  else if String.eqb url "http://f" then
    match req_method rq with
    | HEAD => inr (Response 405 None)
    | GET => inr (Response 200 (Some "abc"))
    end
  else if String.eqb url "http://g" then inr (Response 200 (Some "abc"))
  else if String.eqb url "http://t" then
    inl (Exn TimeoutError "[Errno 110] Connection timed out")
  else inl (Exn ClientConnectorError "Cannot connect to host").

(** The end-to-end scenario of the specification: [a] answers 200 with
    120 bytes, [b] answers 404, [c] times out, [d] answers 301 with 0
    bytes. *)
Definition scenario : list string :=
  ["http://a"; "http://b"; "http://c"; "http://d"].

Definition scenario_result : URLChecker :=
  Checker (bucket_append (bucket_append ∅ 200 (Some 120) "http://a")
                         301 (Some 0) "http://d")
          [error_result "http://c" "Timeout"] 4 2 1.

Definition scenario_outcomes : list result :=
  [ Result "http://a" (Some 200) (Some 120) None;
    Result "http://b" (Some 404) (Some 0) None;
    error_result "http://c" "Timeout";
    Result "http://d" (Some 301) (Some 0) None ].

(** ** Shape of a probe outcome *)

(** A [Success]: status and size set, no error. *)
Definition is_success (r : result) : Prop :=
  ∃ status size,
    res_status r = Some status ∧ res_size r = Some size ∧ res_error r = None.

(** A [Failure]: a non-empty error text, no status, no size. *)
Definition is_failure (r : result) : Prop :=
  ∃ error,
    res_error r = Some error ∧ truthy error = true ∧
    res_status r = None ∧ res_size r = None.

(** The text the outer handlers give to the exception that left the body
    of the [try]. *)
Definition error_text (e : exn) : string :=
  if is_TimeoutError e then "Timeout"
  else if is_ClientConnectorError e then
    "DNS/Connection: " +:+ str_prefix 100 (exc_str e)
  else "Error: " +:+ str_prefix 100 (exc_str e).

(** The response whose status and Content-Length the probe uses, by the
    four ways through the inner [try]: the HEAD response; the GET response
    after a HEAD answered 405 or 501; the GET response of the [except]
    clause after the HEAD raised a [ClientError]; the same after the GET
    that followed a 405 or 501 raised a [ClientError]. *)
Inductive settles_on (args : Args) (send : transport) (url : string)
    : response → Prop :=
  | settles_head r :
      send 0%nat (head_request args url) = inr r →
      method_refused (resp_status r) = false →
      settles_on args send url r
  | settles_get r g :
      send 0%nat (head_request args url) = inr r →
      method_refused (resp_status r) = true →
      send 1%nat (get_request args url) = inr g →
      settles_on args send url g
  | settles_fallback e g :
      send 0%nat (head_request args url) = inl e →
      is_ClientError e = true →
      send 1%nat (get_request args url) = inr g →
      settles_on args send url g
  | settles_retry r e g :
      send 0%nat (head_request args url) = inr r →
      method_refused (resp_status r) = true →
      send 1%nat (get_request args url) = inl e →
      is_ClientError e = true →
      send 2%nat (get_request args url) = inr g →
      settles_on args send url g.

(** ** The rest of [urlchecker.py]: the extension of a URL, the order of
    the report, and the command line around the engine *)





Section Extension.

(** [urlparse(url).path] *)
Variable url_path : string → string.


End Extension.

(** The key of [sorted] in [generate_html_report]:
    [(0 if x == 200 else 1 if 300 <= x < 400 else 2 if x == 403 else 3, x)] *)
Definition status_rank (x : Z) : Z :=
  if x =? 200 then 0
  else if (300 <=? x) && (x <? 400) then 1
  else if x =? 403 then 2
  else 3.

(** The order of two keys: tuples compare component by component. *)
Definition key_le (x y : Z) : Prop :=
  status_rank x < status_rank y ∨ (status_rank x = status_rank y ∧ x ≤ y).

Global Instance key_le_dec x y : Decision (key_le x y).
Proof. unfold key_le. apply _. Defined.

(** [sorted(self.results.keys(), key=...)] *)
Definition sorted_statuses (rs : gmap Z (gmap (option Z) (list string)))
    : list Z :=
  merge_sort key_le (elements (dom rs)).






(** The loop of [main] over [urls] with the set [seen]. *)
Fixpoint unique_from (seen : gset string) (urls : list string) : list string :=
  match urls with
  | [] => []
  | url :: urls' =>
      if bool_decide (url ∈ seen) then unique_from seen urls'
      else url :: unique_from ({[ url ]} ∪ seen) urls'
  end.

Definition unique_urls (urls : list string) : list string :=
  unique_from ∅ urls.

Section Main.

Variable py_int : string → Z + string.
Variable send : transport.

(** [urlparse(url).hostname], [urlparse(url).netloc] and
    [fnmatch.fnmatch]. *)
Variable url_hostname : string → option string.
Variable url_netloc : string → string.
Variable fnmatch : string → string → bool.




End Main.

(** What the aggregator keeps true of a checker: the error counter counts
    the failure sequence, which holds results with an error only; every
    status of the result set is an accepted code; no status is without a
    bucket, no bucket is empty and none is filed under the size [None];
    and [valid] and [errors] together never exceed [total]. *)
Definition tidy (codes : gset Z) (self : URLChecker) : Prop :=
  stats_errors self = Z.of_nat (length (errors self)) ∧
  Forall (λ r, has_error r = true) (errors self) ∧
  (∀ status inner,
     results self !! status = Some inner →
     status ∈ codes ∧ inner ≠ ∅ ∧ inner !! None = None ∧
     ∀ size urls, inner !! size = Some urls → urls ≠ []) ∧
  0 ≤ stats_valid self ∧
  stats_valid self + stats_errors self ≤ stats_total self.

(** * Properties *)

(** ** Running coroutines *)

Lemma exec_bind {A B} (send : transport) (m : io A) (f : A → io B) n :
  exec send n (io_bind m f) =
  match exec send n m with
  | inl e => inl e
  | inr a => exec send (n + awaits send n m) (f a)
  end.
Proof.
  revert n. induction m as [[e | a] | rq k IH]; intros n; cbn.
  - reflexivity.
  - by rewrite Nat.add_0_r.
  - rewrite IH. destruct (exec send (S n) (k (send n rq))); [done |].
    by rewrite Nat.add_succ_r.
Qed.

Lemma exec_try_except {A} (send : transport) (m : io A) clauses n :
  exec send n (try_except m clauses) =
  match exec send n m with
  | inr a => inr a
  | inl e =>
      match List.find (λ c : except_clause A, fst c e) clauses with
      | Some c => exec send (n + awaits send n m) (snd c e)
      | None => inl e
      end
  end.
Proof.
  revert n. induction m as [[e | a] | rq k IH]; intros n; cbn.
  - destruct (List.find _ clauses); [by rewrite Nat.add_0_r | done].
  - reflexivity.
  - rewrite IH. destruct (exec send (S n) (k (send n rq))); [| done].
    destruct (List.find _ clauses); [by rewrite Nat.add_succ_r | done].
Qed.

Lemma str_prefix_length n s : (String.length (str_prefix n s) ≤ n)%nat.
Proof.
  unfold str_prefix. revert s.
  induction n as [| n IH]; intros [| c s]; cbn; try lia.
  specialize (IH s). lia.
Qed.

(** ** The probe *)

Section ProbeFacts.

Variable py_int : string → Z + string.
Variable args : Args.
Variable send : transport.

Lemma exec_check_url url n :
  exec send n (check_url py_int args url) =
  match exec send n (probe_body py_int args url) with
  | inr r => inr r
  | inl e => inr (error_result url (error_text e))
  end.
Proof.
  unfold check_url. rewrite exec_try_except.
  destruct (exec send n (probe_body py_int args url)) as [e | r]; [| done].
  unfold error_text, probe_handlers. cbn.
  destruct (is_TimeoutError e); [done |].
  destruct (is_ClientConnectorError e); done.
Qed.

Lemma exec_probe_body url n :
  exec send n (probe_body py_int args url) =
  match exec send n (settle py_int args url) with
  | inl e => inl e
  | inr (status, size) =>
      inr (Result url (Some status) (Some (or_zero size)) None)
  end.
Proof.
  unfold probe_body. rewrite exec_bind.
  destruct (exec send n (settle py_int args url)) as [e | [status size]]; done.
Qed.

Lemma error_text_truthy e : truthy (error_text e) = true.
Proof.
  unfold error_text.
  destruct (is_TimeoutError e); [done |].
  destruct (is_ClientConnectorError e); done.
Qed.

Lemma error_result_is_failure url e : is_failure (error_result url (error_text e)).
Proof. exists (error_text e). by rewrite error_text_truthy. Qed.

(** Whatever the network does, the probe returns a Success or a Failure. *)
Lemma check_url_returns url n :
  ∃ r : result,
    exec send n (check_url py_int args url) = inr r ∧
    (is_success r ∨ is_failure r).
Proof.
  rewrite exec_check_url, exec_probe_body.
  destruct (exec send n (settle py_int args url)) as [e | [status size]].
  - eexists. split; [done |]. right. apply error_result_is_failure.
  - eexists. split; [done |]. left. by exists status, (or_zero size).
Qed.

(** C4. The probe returns an outcome for every URL, configuration and
    network: running [check_url] never ends in a raised exception, and
    what it returns is a Success or a Failure for that URL.  When the body
    of its [try] raises (a timeout or any other exception of a network
    call or of reading its reply) the outcome is a Failure; when it
    returns, the outcome is what it returned. *)
Theorem check_url_never_raises (url : string) (n : nat) :
  ∃ r : result,
    exec send n (check_url py_int args url) = inr r ∧
    res_url r = url ∧
    (is_success r ∨ is_failure r) ∧
    match exec send n (probe_body py_int args url) with
    | inl _ => is_failure r
    | inr r' => r = r'
    end.
Proof.
  rewrite exec_check_url, exec_probe_body.
  destruct (exec send n (settle py_int args url)) as [e | [status size]].
  - exists (error_result url (error_text e)).
    pose proof (error_result_is_failure url e) as Hf.
    repeat split; [by right | done].
  - eexists. repeat split. left. by exists status, (or_zero size).
Qed.

Lemma size_of_not_ClientError content_length e :
  size_of py_int content_length = inl e → is_ClientError e = false.
Proof.
  unfold size_of. destruct content_length as [s |]; [| done].
  destruct (truthy s); [| done]. destruct (py_int s); [done |].
  intros [= <-]. done.
Qed.

Lemma inner_clause_test e :
  is_ClientResponseError e || is_ClientError e = is_ClientError e.
Proof. destruct e as [[] msg]; done. Qed.

(** The probe's use of the response it settles on. *)
Lemma settle_on_response url resp :
  settles_on args send url resp →
  exec send 0 (settle py_int args url) =
  match size_of py_int (resp_content_length resp) with
  | inl e => inl e
  | inr size => inr (resp_status resp, size)
  end.
Proof.
  intros Hs. unfold settle, head_attempt, get_fallback.
  destruct Hs as [r H0 Hr | r g H0 Hr H1 | e g H0 He H1 | r e g H0 Hr H1 He H2];
    cbn; rewrite H0; cbn;
    rewrite ?Hr, ?inner_clause_test, ?He; cbn;
    rewrite ?H1; cbn; rewrite ?inner_clause_test, ?He; cbn; rewrite ?H2; cbn;
    (destruct (size_of py_int (resp_content_length _)) as [e' | size] eqn:E;
     cbn; [| done]);
    rewrite ?inner_clause_test, ?(size_of_not_ClientError _ _ E); done.
Qed.

Lemma or_zero_Some n : or_zero (Some n) = n.
Proof. unfold or_zero. destruct (Z.eqb_spec n 0); congruence. Qed.

Lemma check_url_on_response url resp :
  settles_on args send url resp →
  exec send 0 (check_url py_int args url) =
  inr match size_of py_int (resp_content_length resp) with
      | inl e => error_result url (error_text e)
      | inr size =>
          Result url (Some (resp_status resp)) (Some (or_zero size)) None
      end.
Proof.
  intros Hs. rewrite exec_check_url, exec_probe_body.
  rewrite (settle_on_response _ _ Hs).
  destruct (size_of py_int (resp_content_length resp)); done.
Qed.

Lemma plain_timeout_not_ClientError e :
  exc_type e = TimeoutError → is_ClientError e = false ∧ is_TimeoutError e = true.
Proof. destruct e as [c msg]; cbn; intros ->; done. Qed.

(** Case analysis along the probe: on every reply, class test and header. *)
Ltac probe_cases :=
  repeat (cbn;
    rewrite ?inner_clause_test;
    match goal with
    | H : ?x = _ |- context [match ?x with _ => _ end] => rewrite H
    | H : ?x = _ |- context [if ?x then _ else _] => rewrite H
    | |- context [send ?n ?rq] => destruct (send n rq) eqn:?
    | |- context [method_refused ?z] => destruct (method_refused z) eqn:?
    | |- context [is_ClientError ?e] => destruct (is_ClientError e) eqn:?
    | |- context [is_TimeoutError ?e] => destruct (is_TimeoutError e) eqn:?
    | |- context [is_ClientConnectorError ?e] =>
        destruct (is_ClientConnectorError e) eqn:?
    | |- context [size_of ?f ?c] =>
        let E := fresh "E" in
        destruct (size_of f c) eqn:E;
        [pose proof (size_of_not_ClientError _ _ E) |]
    end).

(** A request answered by the total timer's [asyncio.TimeoutError] ends
    the body of the [try] with a timeout, whichever request it is. *)
Lemma plain_timeout_leaves_body url i rq e :
  requests send 0 (check_url py_int args url) !! i = Some rq →
  send i rq = inl e →
  exc_type e = TimeoutError →
  ∃ e', exec send 0 (probe_body py_int args url) = inl e' ∧
        is_TimeoutError e' = true.
Proof.
  intros Hrq Hsend [Hnc Ht]%plain_timeout_not_ClientError. revert Hrq.
  unfold check_url, probe_body, settle, head_attempt, get_fallback.
  probe_cases; cbn.
  all: intros Hrq; destruct i as [| [| [| i]]]; cbn in Hrq; simplify_eq.
  all: try (eexists; split; [reflexivity | done]).
  all: congruence.
Qed.

(** After a HEAD answered 405 or 501 the second request is the GET. *)
Lemma second_request_after_refusal url r :
  send 0%nat (head_request args url) = inr r →
  method_refused (resp_status r) = true →
  requests send 0 (check_url py_int args url) !! 1%nat =
  Some (get_request args url).
Proof.
  intros H0 Hr.
  unfold check_url, probe_body, settle, head_attempt. cbn.
  rewrite H0. cbn. rewrite Hr. done.
Qed.

Lemma str_prefix_spec n s :
  ∃ rest, s = str_prefix n s +:+ rest ∧
          String.length (str_prefix n s) = Nat.min n (String.length s).
Proof.
  unfold str_prefix. revert s.
  induction n as [| n IH]; intros [| c s]; simpl; eauto.
  destruct (IH s) as (rest & Hs & Hl). exists rest. split; [| lia].
  change (String c s = String c (substring 0 n s +:+ rest)). congruence.
Qed.

(** C5 (amended). When the HEAD request is answered by a response with
    status 405 or 501, the probe's next request is a GET for the same URL
    with redirects disabled and the timeout of the HEAD; and when that GET
    is answered by a response whose Content-Length is absent, empty or read
    by [int], the outcome is the Success carrying the GET response's status
    and that size (0 when absent or empty).  In particular 405 on HEAD and
    200 on GET then give a Success with status 200. *)
Theorem head_refused_uses_get (url : string) (r : response) :
  send 0%nat (head_request args url) = inr r →
  method_refused (resp_status r) = true →
  requests send 0 (check_url py_int args url) !! 1%nat =
    Some (Request GET url (req_timeout (head_request args url)) false) ∧
  ∀ g size,
    send 1%nat (get_request args url) = inr g →
    size_of py_int (resp_content_length g) = inr size →
    exec send 0 (check_url py_int args url) =
    inr (Result url (Some (resp_status g)) (Some (or_zero size)) None).
Proof.
  intros H0 Hr. split.
  - by apply second_request_after_refusal with r.
  - intros g size H1 Hsize.
    rewrite (check_url_on_response url g); [by rewrite Hsize |].
    by apply settles_get with r.
Qed.

(** C6. The exception that ends the body of the [try] is classified in the
    order of the handlers: an [asyncio.TimeoutError] gives the Timeout
    failure (error text [Timeout]); otherwise a [ClientConnectorError]
    gives the ConnectionError failure (text [DNS/Connection: ...]);
    otherwise the OtherError failure (text [Error: ...]).  A request of the
    probe on which the total timer fires gives the Timeout failure, and a
    HEAD and its fallback GET that both fail to connect give the
    ConnectionError failure. *)
Theorem failure_classification (url : string) :
  (∀ e, exec send 0 (probe_body py_int args url) = inl e →
     exec send 0 (check_url py_int args url) =
     inr (Result url None None
            (Some (if is_TimeoutError e then "Timeout"
                   else if is_ClientConnectorError e then
                     "DNS/Connection: " +:+ str_prefix 100 (exc_str e)
                   else "Error: " +:+ str_prefix 100 (exc_str e))))) ∧
  (∀ i rq e,
     requests send 0 (check_url py_int args url) !! i = Some rq →
     send i rq = inl e →
     exc_type e = TimeoutError →
     exec send 0 (check_url py_int args url) =
     inr (Result url None None (Some "Timeout"))) ∧
  (∀ e0 e1,
     send 0%nat (head_request args url) = inl e0 →
     is_ClientConnectorError e0 = true →
     send 1%nat (get_request args url) = inl e1 →
     is_ClientConnectorError e1 = true →
     exec send 0 (check_url py_int args url) =
     inr (Result url None None
            (Some ("DNS/Connection: " +:+ str_prefix 100 (exc_str e1))))).
Proof.
  split; [| split].
  - intros e He. rewrite exec_check_url, He. done.
  - intros i rq e Hrq Hsend Hty.
    destruct (plain_timeout_leaves_body url i rq e Hrq Hsend Hty)
      as (e' & He' & Ht).
    rewrite exec_check_url, He'. unfold error_text. by rewrite Ht.
  - intros e0 e1 H0 Hc0 H1 Hc1.
    assert (is_ClientError e0 = true) as Hce0 by (by destruct e0 as [[] ?]).
    assert (is_TimeoutError e1 = false) as Ht1 by (by destruct e1 as [[] ?]).
    unfold check_url, probe_body, settle, head_attempt, get_fallback.
    cbn. rewrite H0. cbn. rewrite inner_clause_test, Hce0. cbn.
    rewrite H1. cbn. rewrite Ht1. cbn. rewrite Hc1. done.
Qed.

(** C7 (amended). When the exception that ends the body of the [try] is
    not a timeout, the error text of the Failure is the label of its class
    followed by the detail, and the detail is [str(e)] cut after its first
    100 characters: a prefix of [str(e)] of length [min(100, len(str(e)))].
    For a timeout the error text is the constant [Timeout] and carries
    nothing of [str(e)]. *)
Theorem failure_detail (url : string) (e : exn) :
  exec send 0 (probe_body py_int args url) = inl e →
  ∃ r, exec send 0 (check_url py_int args url) = inr r ∧
    if is_TimeoutError e then res_error r = Some "Timeout"
    else
      ∃ label detail rest,
        res_error r = Some (label +:+ detail) ∧
        label = (if is_ClientConnectorError e then "DNS/Connection: "
                 else "Error: ") ∧
        exc_str e = detail +:+ rest ∧
        String.length detail = Nat.min 100 (String.length (exc_str e)) ∧
        (String.length detail ≤ 100)%nat.
Proof.
  intros He. rewrite exec_check_url, He. eexists. split; [done |].
  unfold error_text. destruct (is_TimeoutError e); [done |].
  destruct (str_prefix_spec 100 (exc_str e)) as (rest & Hs & Hl).
  exists (if is_ClientConnectorError e then "DNS/Connection: " else "Error: "),
    (str_prefix 100 (exc_str e)), rest.
  repeat split; [| done | done | apply str_prefix_length].
  destruct (is_ClientConnectorError e); done.
Qed.

(** C8 (amended). For the response the probe settles on: without a
    Content-Length, or with an empty one, the outcome is a Success of size
    0; with a Content-Length that [int] reads as [n], a Success of size
    [n]; with one that [int] refuses, the [ValueError] reaches the
    catch-all handler and the outcome is the OtherError failure. *)
Theorem size_from_content_length (url : string) (resp : response) :
  settles_on args send url resp →
  exec send 0 (check_url py_int args url) =
  inr match resp_content_length resp with
      | None => Result url (Some (resp_status resp)) (Some 0) None
      | Some s =>
          if truthy s then
            match py_int s with
            | inl n => Result url (Some (resp_status resp)) (Some n) None
            | inr msg =>
                Result url None None (Some ("Error: " +:+ str_prefix 100 msg))
            end
          else Result url (Some (resp_status resp)) (Some 0) None
      end.
Proof.
  intros Hs. rewrite (check_url_on_response url resp Hs).
  unfold size_of.
  destruct (resp_content_length resp) as [s |]; [| done].
  destruct (truthy s); [| done].
  destruct (py_int s) as [n | msg]; [| done].
  cbn -[or_zero]. by rewrite or_zero_Some.
Qed.

End ProbeFacts.

(** ** The event loop *)

Section LoopFacts.

Variable body : string → io result.
Variable send : transport.

Lemma step_middle p l1 t l2 p' t' :
  step_task body send p t = Some (p', t') →
  step body send (Loop p (l1 ++ t :: l2)) (Loop p' (l1 ++ t' :: l2)).
Proof.
  intros Ht.
  replace (l1 ++ t' :: l2) with (<[length l1 := t']> (l1 ++ t :: l2)).
  - apply (step_at body send (Loop p (l1 ++ t :: l2)) (length l1) t t' p');
      [by apply list_lookup_middle | done].
  - replace (length l1) with (length l1 + 0)%nat at 1 by lia.
    by rewrite insert_app_r.
Qed.

Lemma step_inv s s' :
  step body send s s' →
  ∃ l1 t l2 p' t',
    tasks s = l1 ++ t :: l2 ∧
    step_task body send (permits s) t = Some (p', t') ∧
    s' = Loop p' (l1 ++ t' :: l2).
Proof.
  intros [s0 i t t' p' Hi Ht].
  exists (take i (tasks s0)), t, (drop (S i) (tasks s0)), p', t'.
  split; [by rewrite take_drop_middle |]. split; [done |].
  f_equal. apply insert_take_drop. by eapply lookup_lt_Some.
Qed.

Lemma count_app f l1 l2 : count f (l1 ++ l2) = count f l1 + count f l2.
Proof. unfold count. rewrite List.filter_app, length_app. lia. Qed.

Lemma count_cons f t l :
  count f (t :: l) = (if f t then 1 else 0) + count f l.
Proof. unfold count. cbn. destruct (f t); cbn; lia. Qed.

Lemma count_in_flight_le l : count in_flight l ≤ count holds_permit l.
Proof.
  induction l as [| t l IH]; [done |]. rewrite !count_cons.
  destruct t as [u | n [v | rq k] | v]; cbn; lia.
Qed.

Lemma total_weight_app l1 l2 :
  total_weight body send (l1 ++ l2) =
  (total_weight body send l1 + total_weight body send l2)%nat.
Proof. unfold total_weight. by rewrite map_app, list_sum_app. Qed.

Lemma total_weight_cons t l :
  total_weight body send (t :: l) =
  (weight body send t + total_weight body send l)%nat.
Proof. done. Qed.

(** One move of a task: the permits it takes or gives back, the moves it
    has left, and the value it will end with. *)
Lemma step_task_effect p t p' t' :
  step_task body send p t = Some (p', t') →
  p' + (if holds_permit t' then 1 else 0) = p + (if holds_permit t then 1 else 0) ∧
  (0 ≤ p → 0 ≤ p') ∧
  weight body send t = S (weight body send t') ∧
  final_of body send t' = final_of body send t.
Proof.
  destruct t as [u | n [v | rq k] | v]; cbn.
  - destruct (Z.ltb_spec 0 p); intros [= <- <-]; cbn. repeat split; lia.
  - intros [= <- <-]; cbn. repeat split; lia.
  - intros [= <- <-]; cbn. repeat split; lia.
  - discriminate.
Qed.

Lemma loop_inv_step K vs s s' :
  loop_inv body send K vs s → step body send s s' → loop_inv body send K vs s'.
Proof.
  intros (Hp & Hk & Hv) (l1 & t & l2 & p' & t' & Hts & Ht & ->)%step_inv.
  apply step_task_effect in Ht as (Hperm & Hpos & _ & Hfin).
  rewrite Hts in Hk, Hv. unfold loop_inv. cbn.
  rewrite count_app, count_cons in *. rewrite map_app in *. cbn in *.
  rewrite Hfin. repeat split; [auto | lia | done].
Qed.

Lemma loop_inv_steps K vs s s' :
  loop_inv body send K vs s → rtc (step body send) s s' → loop_inv body send K vs s'.
Proof. intros Hs Hrtc. induction Hrtc; eauto using loop_inv_step. Qed.

Lemma count_spawn f urls : (∀ u, f (Waiting u) = false) → count f (spawn urls) = 0.
Proof.
  intros Hf. induction urls as [| u urls IH]; [done |].
  cbn. rewrite count_cons, Hf. fold (spawn urls). lia.
Qed.

Lemma loop_inv_init K urls :
  0 ≤ K →
  loop_inv body send K (map (λ u, exec send 0 (body u)) urls) (Loop K (spawn urls)).
Proof.
  intros HK. repeat split; [done | |].
  - cbn. rewrite count_spawn; [lia | done].
  - cbn. unfold spawn. rewrite map_map. done.
Qed.

Lemma step_weight s s' :
  step body send s s' →
  total_weight body send (tasks s) = S (total_weight body send (tasks s')).
Proof.
  intros (l1 & t & l2 & p' & t' & Hts & Ht & ->)%step_inv.
  apply step_task_effect in Ht as (_ & _ & Hw & _).
  rewrite Hts. cbn [tasks]. rewrite !total_weight_app, !total_weight_cons.
  rewrite Hw. lia.
Qed.

Lemma tick_tasks_Some p ts p' ts' :
  tick_tasks body send p ts = Some (p', ts') →
  ∃ l1 t l2 t',
    ts = l1 ++ t :: l2 ∧ ts' = l1 ++ t' :: l2 ∧
    step_task body send p t = Some (p', t').
Proof.
  revert ts'. induction ts as [| t ts IH]; intros ts'; cbn; [done |].
  destruct (step_task body send p t) as [[q t'] |] eqn:Ht.
  - intros [= <- <-]. by exists [], t, ts, t'.
  - destruct (tick_tasks body send p ts) as [[q ts''] |]; [| done].
    intros [= <- <-].
    destruct (IH ts'' eq_refl) as (l1 & t0 & l2 & t' & -> & -> & Hstep).
    by exists (t :: l1), t0, l2, t'.
Qed.

Lemma tick_tasks_None p ts :
  tick_tasks body send p ts = None →
  Forall (λ t, step_task body send p t = None) ts.
Proof.
  induction ts as [| t ts IH]; cbn; [by constructor |].
  destruct (step_task body send p t) as [[q t'] |] eqn:Ht; [done |].
  destruct (tick_tasks body send p ts) as [[q ts''] |]; [done |].
  intros _. constructor; auto.
Qed.

(** The deterministic schedule is one of the loop's runs. *)
Lemma tick_step s s' : tick body send s = Some s' → step body send s s'.
Proof.
  unfold tick. destruct s as [p ts]. cbn.
  destruct (tick_tasks body send p ts) as [[p' ts'] |] eqn:Ht; [| done].
  intros [= <-].
  apply tick_tasks_Some in Ht as (l1 & t & l2 & t' & -> & -> & Hstep).
  by apply step_middle.
Qed.

Lemma stuck_tasks p ts :
  Forall (λ t, step_task body send p t = None) ts →
  count holds_permit ts = 0 ∧
  (0 < p → forallb is_done ts = true).
Proof.
  induction 1 as [| t ts Ht _ [IHc IHd]]; [done |].
  rewrite count_cons.
  destruct t as [u | n [v | rq k] | v]; cbn in *; try discriminate.
  - split; [lia |]. intros Hp. destruct (Z.ltb_spec 0 p); [done | lia].
  - split; [lia | done].
Qed.

(** No deadlock: with a positive number of permits in circulation, a state
    in which no task can move is one in which every task has finished. *)
Lemma stuck_is_done K vs s :
  0 < K → loop_inv body send K vs s →
  tick body send s = None → forallb is_done (tasks s) = true.
Proof.
  intros HK (Hp & Hk & _) Ht. unfold tick in Ht.
  destruct (tick_tasks body send (permits s) (tasks s)) as [[p' ts'] |] eqn:E;
    [done |].
  apply tick_tasks_None, stuck_tasks in E as [Hc Hd].
  apply Hd. lia.
Qed.

Lemma weight_zero_done ts :
  total_weight body send ts = O → forallb is_done ts = true.
Proof.
  induction ts as [| t ts IH]; [done |]. rewrite total_weight_cons.
  destruct t; cbn; try lia. intros H. apply IH. lia.
Qed.

Lemma drive_steps fuel s : rtc (step body send) s (drive body send fuel s).
Proof.
  revert s. induction fuel as [| fuel IH]; intros s; cbn; [done |].
  destruct (tick body send s) as [s' |] eqn:Ht; [| done].
  eapply rtc_l; [by apply tick_step | apply IH].
Qed.

(** The schedule runs every task to its end. *)
Lemma drive_done K vs fuel s :
  0 < K → loop_inv body send K vs s →
  (total_weight body send (tasks s) ≤ fuel)%nat →
  forallb is_done (tasks (drive body send fuel s)) = true.
Proof.
  intros HK. revert s. induction fuel as [| fuel IH]; intros s Hinv Hw; cbn.
  - apply weight_zero_done. lia.
  - destruct (tick body send s) as [s' |] eqn:Ht.
    + pose proof (tick_step _ _ Ht) as Hstep.
      apply IH; [by eapply loop_inv_step |].
      apply step_weight in Hstep. lia.
    + by eapply stuck_is_done.
Qed.

Lemma done_permits K vs s :
  loop_inv body send K vs s → forallb is_done (tasks s) = true →
  permits s = K.
Proof.
  intros (_ & Hk & _) Hd.
  assert (count holds_permit (tasks s) = 0) as Hc; [| lia].
  clear Hk. induction (tasks s) as [| t ts IH]; [done |].
  rewrite count_cons. cbn in Hd. apply andb_prop in Hd as [Ht Hd].
  destruct t; cbn in *; try done. rewrite IH; [lia | done].
Qed.

Lemma gather_done K vs s :
  loop_inv body send K vs s → forallb is_done (tasks s) = true →
  gather body send (tasks s) = Some (join_all vs).
Proof. intros (_ & _ & Hv) Hd. unfold gather. by rewrite Hd, Hv. Qed.

Lemma join_all_inr (f : string → exn + result) urls :
  (∀ u, u ∈ urls → ∃ r, f u = inr r) →
  ∃ rs, join_all (map f urls) = inr rs ∧
        Forall2 (λ u r, f u = inr r) urls rs.
Proof.
  induction urls as [| u urls IH]; intros Hf; cbn.
  - exists []. by split; [| constructor].
  - destruct (Hf u) as [r Hr]; [by left |]. rewrite Hr.
    destruct IH as (rs & -> & Hrs); [intros; apply Hf; by right |].
    exists (r :: rs). split; [done |]. by constructor.
Qed.

Lemma join_all_Forall2 (f : string → exn + result) urls rs :
  join_all (map f urls) = inr rs → Forall2 (λ u r, f u = inr r) urls rs.
Proof.
  revert rs. induction urls as [| u urls IH]; intros rs; cbn.
  - intros [= <-]. constructor.
  - destruct (f u) as [e | r] eqn:Hu; [done |].
    destruct (join_all (map f urls)) as [e | rs']; [done |].
    intros [= <-]. constructor; auto.
Qed.

(** [run_batch] on a semaphore with permits: every task is run to its end,
    the permits are all back, and the values come in task order. *)
Lemma run_batch_completes sem urls :
  0 < sem →
  (∀ u, u ∈ urls → ∃ r, exec send 0 (body u) = inr r) →
  ∃ rs, run_batch body send sem urls = Completed (rs, sem) ∧
        Forall2 (λ u r, exec send 0 (body u) = inr r) urls rs.
Proof.
  intros Hsem Hbody. unfold run_batch.
  set (s0 := Loop sem (spawn urls)).
  set (s := drive body send _ s0).
  assert (loop_inv body send sem (map (λ u, exec send 0 (body u)) urls) s0)
    as Hinv0 by (apply loop_inv_init; lia).
  assert (loop_inv body send sem (map (λ u, exec send 0 (body u)) urls) s)
    as Hinv by (eapply loop_inv_steps; [done | apply drive_steps]).
  assert (forallb is_done (tasks s) = true) as Hd
    by (eapply drive_done; [done | done | done]).
  rewrite (gather_done _ _ _ Hinv Hd), (done_permits _ _ _ Hinv Hd).
  destruct (join_all_inr (λ u, exec send 0 (body u)) urls Hbody) as (rs & -> & Hrs).
  by exists rs.
Qed.

Lemma run_batch_nil sem : run_batch body send sem [] = Completed ([], sem).
Proof. done. Qed.

(** Without a permit no task ever starts: the batch never returns. *)
Lemma run_batch_hangs sem u urls :
  sem ≤ 0 → run_batch body send sem (u :: urls) = Hangs.
Proof.
  intros Hsem. unfold run_batch.
  assert (tick body send (Loop sem (spawn (u :: urls))) = None) as Ht.
  { unfold tick. cbn [permits tasks].
    assert (∀ us, tick_tasks body send sem (spawn us) = None) as ->; [| done].
    induction us as [| u' us IH]; [done |]. cbn.
    destruct (Z.ltb_spec 0 sem); [lia |]. fold (spawn us). by rewrite IH. }
  assert (∀ fuel, drive body send fuel (Loop sem (spawn (u :: urls))) =
                  Loop sem (spawn (u :: urls))) as ->.
  { intros [| fuel]; [done |]. cbn [drive]. by rewrite Ht. }
  done.
Qed.

Lemma final_values_steps s s' :
  rtc (step body send) s s' →
  map (final_of body send) (tasks s') = map (final_of body send) (tasks s).
Proof.
  induction 1 as [| s1 s2 s3 Hstep _ IH]; [done |]. rewrite IH.
  apply step_inv in Hstep as (l1 & t & l2 & p' & t' & -> & Ht & ->).
  apply step_task_effect in Ht as (_ & _ & _ & Hfin).
  cbn. rewrite !map_app. cbn. by rewrite Hfin.
Qed.

(** Whatever the schedule, what [gather] returns for a batch is, position
    by position, what each URL's coroutine computes. *)
Lemma gather_in_task_order sem urls s rs :
  rtc (step body send) (Loop sem (spawn urls)) s →
  gather body send (tasks s) = Some (inr rs) →
  Forall2 (λ u r, exec send 0 (body u) = inr r) urls rs.
Proof.
  intros Hrtc Hg. apply final_values_steps in Hrtc.
  unfold gather in Hg. destruct (forallb is_done (tasks s)); [| done].
  injection Hg as Hg. rewrite Hrtc in Hg. cbn in Hg.
  unfold spawn in Hg. rewrite map_map in Hg. cbn in Hg.
  by apply join_all_Forall2.
Qed.

Lemma run_batch_in_order sem urls rs sem' :
  run_batch body send sem urls = Completed (rs, sem') →
  Forall2 (λ u r, exec send 0 (body u) = inr r) urls rs.
Proof.
  unfold run_batch.
  destruct (gather _ _ _) as [[e | rs'] |] eqn:Hg; try done.
  intros [= <- <-]. eapply gather_in_task_order; [| exact Hg].
  apply drive_steps.
Qed.

Lemma nsteps_bound n s s' :
  nsteps (step body send) n s s' →
  (n + total_weight body send (tasks s') = total_weight body send (tasks s))%nat.
Proof.
  induction 1 as [| n s1 s2 s3 Hstep _ IH]; [done |].
  apply step_weight in Hstep. lia.
Qed.

(** C9. A batch of any size started on a semaphore of [K > 0] permits, in
    every state [s] that any interleaving of its tasks can reach: at most
    [K] tasks are awaiting a network reply; every permit is either in the
    pool or held by exactly one running task, so none leaks, and once all
    tasks have finished, by returning or by raising, the pool is full
    again; while a task is unfinished some task can move, so the pool
    never deadlocks; and every run from [s] ends within the moves the
    tasks have left. *)
Theorem permit_pool_safe (K : Z) (urls : list string) (s : loop) :
  0 < K →
  rtc (step body send) (Loop K (spawn urls)) s →
  count in_flight (tasks s) ≤ K ∧
  (0 ≤ permits s ∧ permits s + count holds_permit (tasks s) = K) ∧
  (forallb is_done (tasks s) = true → permits s = K) ∧
  (forallb is_done (tasks s) = false → ∃ s', step body send s s') ∧
  (∀ n s', nsteps (step body send) n s s' →
           (n ≤ total_weight body send (tasks s))%nat).
Proof.
  intros HK Hrtc.
  assert (loop_inv body send K (map (λ u, exec send 0 (body u)) urls) s)
    as Hinv by (eapply loop_inv_steps; [apply loop_inv_init; lia | done]).
  pose proof Hinv as (Hp & Hk & _).
  split; [| split; [| split; [| split]]].
  - pose proof (count_in_flight_le (tasks s)). lia.
  - done.
  - by eapply done_permits.
  - intros Hnd. destruct (tick body send s) as [s' |] eqn:Ht.
    + exists s'. by apply tick_step.
    + rewrite (stuck_is_done K _ s HK Hinv Ht) in Hnd. done.
  - intros n s' Hn. apply nsteps_bound in Hn. lia.
Qed.

End LoopFacts.

(** ** The dispatcher *)

Lemma chunks_concat {A} (l : list A) (b m : nat) :
  concat (map (λ i, slice l i (i + b)) (map (λ k, k * b)%nat (seq 0 m))) =
  take (m * b) l.
Proof.
  induction m as [| m IH]; [done |].
  rewrite seq_S, !map_app, concat_app, IH. cbn.
  unfold slice. replace (m * b + b - m * b)%nat with b by lia.
  rewrite app_nil_r, take_take_drop. f_equal. lia.
Qed.

Lemma range_covers (n b : nat) : (0 < b → n ≤ (n + b - 1) / b * b)%nat.
Proof.
  intros Hb.
  pose proof (Nat.div_mod_eq (n + b - 1) b) as Hdm.
  pose proof (Nat.mod_upper_bound (n + b - 1) b) as Hm.
  nia.
Qed.

Section RunFacts.

Variable py_int : string → Z + string.
Variable args : Args.
Variable send : transport.

(** The chunks, put end to end, are the input. *)
Lemma batches_concat urls : concat (batches urls) = urls.
Proof.
  unfold batches, py_range. rewrite chunks_concat.
  apply take_ge, range_covers. unfold batch_size. lia.
Qed.

Lemma process_batch_in_order sem urls rs sem' :
  process_batch py_int args send sem urls = Completed (rs, sem') →
  Forall2 (λ u r, exec send 0 (check_url py_int args u) = inr r) urls rs.
Proof. apply run_batch_in_order. Qed.

Lemma process_batch_completes sem urls :
  0 < sem →
  ∃ rs, process_batch py_int args send sem urls = Completed (rs, sem).
Proof.
  intros Hsem.
  destruct (run_batch_completes (check_url py_int args) send sem urls Hsem)
    as (rs & Hrs & _); [| by exists rs].
  intros u _.
  destruct (check_url_returns py_int args send u 0) as (r & Hr & _).
  by exists r.
Qed.

Lemma dispatch_in_order sem acc bs rs :
  dispatch py_int args send sem acc bs = Completed rs →
  ∃ rs', rs = acc ++ rs' ∧
    Forall2 (λ u r, exec send 0 (check_url py_int args u) = inr r)
            (concat bs) rs'.
Proof.
  revert sem acc. induction bs as [| b bs IH]; intros sem acc; cbn.
  - intros [= <-]. exists []. by rewrite app_nil_r.
  - destruct (process_batch py_int args send sem b) as [[brs sem'] | e |] eqn:Hb;
      try done.
    intros (rs' & -> & Hrs')%IH. exists (brs ++ rs').
    split; [by rewrite app_assoc |].
    apply Forall2_app; [by eapply process_batch_in_order | done].
Qed.

Lemma dispatch_completes sem acc bs :
  0 < sem → ∃ rs, dispatch py_int args send sem acc bs = Completed rs.
Proof.
  intros Hsem. revert acc. induction bs as [| b bs IH]; intros acc; cbn.
  - by exists acc.
  - destruct (process_batch_completes sem b Hsem) as (brs & ->). apply IH.
Qed.

Lemma collect_in_order urls rs :
  collect py_int args send urls = Completed rs →
  Forall2 (λ u r, exec send 0 (check_url py_int args u) = inr r) urls rs.
Proof.
  unfold collect. destruct (Semaphore _) as [e | sem]; [done |].
  intros (rs' & -> & Hrs)%dispatch_in_order.
  by rewrite batches_concat in Hrs.
Qed.

(** With a positive concurrency the run completes. *)
Lemma collect_completes urls :
  0 < args_concurrency args →
  ∃ rs, collect py_int args send urls = Completed rs.
Proof.
  intros HK. unfold collect, Semaphore.
  destruct (Z.ltb_spec (args_concurrency args) 0); [lia |].
  by apply dispatch_completes.
Qed.

(** With [--concurrency 0] no probe ever starts. *)
Lemma collect_hangs u urls :
  args_concurrency args = 0 →
  collect py_int args send (u :: urls) = Hangs.
Proof.
  intros HK. unfold collect, Semaphore. rewrite HK. cbn [Z.ltb Z.compare].
  assert (∃ b bs, batches (u :: urls) = (u :: b) :: bs) as (b & bs & ->).
  { unfold batches, py_range, batch_size. cbn [length].
    destruct ((S (length urls) + 1000 - 1) / 1000)%nat as [| m] eqn:Hm.
    - apply Nat.div_small_iff in Hm; lia.
    - cbn [seq map]. unfold slice at 1. cbn -[Nat.div]. eauto. }
  cbn. unfold process_batch. by rewrite run_batch_hangs.
Qed.

End RunFacts.

(** ** The aggregator *)

Lemma bucket_append_same (rs : gmap Z (gmap (option Z) (list string)))
    status size url :
  bucket (bucket_append rs status size url) status size =
  bucket rs status size ++ [url].
Proof.
  unfold bucket_append, bucket at 1.
  rewrite lookup_insert_eq. cbn. by rewrite lookup_insert_eq.
Qed.

Lemma bucket_append_other (rs : gmap Z (gmap (option Z) (list string)))
    status size url status' size' :
  status' ≠ status ∨ size' ≠ size →
  bucket (bucket_append rs status size url) status' size' =
  bucket rs status' size'.
Proof.
  intros Hne. unfold bucket_append, bucket at 1.
  destruct (decide (status' = status)) as [-> | Hs].
  - rewrite lookup_insert_eq. cbn.
    rewrite lookup_insert_ne; [done |]. destruct Hne; congruence.
  - by rewrite lookup_insert_ne.
Qed.

Lemma accepted_status codes r :
  accepted codes r = true ↔ ∃ status, res_status r = Some status ∧ status ∈ codes.
Proof.
  unfold accepted. destruct (res_status r) as [status |].
  - rewrite bool_decide_eq_true. split; [by exists status |].
    by intros (? & [= <-] & ?).
  - split; [done | by intros (? & ? & ?)].
Qed.

(** What folding one outcome changes. *)
Lemma fold_result_effect codes self r :
  let self' := fold_result codes self r in
  stats_total self' = stats_total self + 1 ∧
  stats_errors self' = stats_errors self + (if has_error r then 1 else 0) ∧
  stats_valid self' = stats_valid self + (if is_valid codes r then 1 else 0) ∧
  errors self' = errors self ++ (if has_error r then [r] else []) ∧
  ∀ status size,
    bucket (results self') status size =
    bucket (results self) status size ++
    (if lands_in codes status size r then [res_url r] else []).
Proof.
  unfold fold_result, lands_in, is_valid.
  destruct (has_error r); cbn.
  { repeat split; try lia. intros. by rewrite app_nil_r. }
  destruct (accepted codes r) eqn:Ha; cbn.
  - apply accepted_status in Ha as (st & Hst & Hin). rewrite Hst.
    rewrite (bool_decide_eq_true_2 _ Hin). cbn.
    repeat split; try lia; [by rewrite app_nil_r |].
    intros status size.
    destruct (decide (st = status)) as [-> | Hs].
    + rewrite bool_decide_eq_true_2 by done. cbn.
      destruct (decide (res_size r = size)) as [<- | Hz].
      * rewrite bool_decide_eq_true_2 by done. apply bucket_append_same.
      * rewrite bool_decide_eq_false_2 by done. rewrite app_nil_r.
        apply bucket_append_other. right. congruence.
    + rewrite bool_decide_eq_false_2 by congruence. cbn. rewrite app_nil_r.
      apply bucket_append_other. left. congruence.
  - unfold accepted in Ha.
    destruct (res_status r) as [st |]; [rewrite Ha |]; cbn;
      (repeat split; try lia; [by rewrite app_nil_r |]);
      intros; by rewrite app_nil_r.
Qed.

Lemma tally_cons f r rs : tally f (r :: rs) = (if f r then 1 else 0) + tally f rs.
Proof. unfold tally. cbn. destruct (f r); cbn; lia. Qed.

(** What folding a sequence of outcomes changes: the counters count, and
    the failure sequence and the buckets grow in the order of the
    sequence. *)
Lemma aggregate_effect codes rs self :
  let self' := foldl (fold_result codes) self rs in
  stats_total self' = stats_total self + Z.of_nat (length rs) ∧
  stats_errors self' = stats_errors self + tally has_error rs ∧
  stats_valid self' = stats_valid self + tally (is_valid codes) rs ∧
  errors self' = errors self ++ List.filter has_error rs ∧
  ∀ status size,
    bucket (results self') status size =
    bucket (results self) status size ++
    map res_url (List.filter (lands_in codes status size) rs).
Proof.
  revert self. induction rs as [| r rs IH]; intros self.
  - cbn. unfold tally. cbn. repeat split; try lia; [by rewrite app_nil_r |].
    intros. by rewrite app_nil_r.
  - cbn [foldl]. specialize (IH (fold_result codes self r)).
    destruct IH as (Ht & He & Hv & Hl & Hb).
    destruct (fold_result_effect codes self r) as (Ht1 & He1 & Hv1 & Hl1 & Hb1).
    cbn zeta in *. rewrite Ht, He, Hv, Hl, Ht1, He1, Hv1, Hl1, !tally_cons.
    repeat split.
    + cbn [length]. lia.
    + destruct (has_error r); lia.
    + destruct (is_valid codes r); lia.
    + cbn [List.filter]. destruct (has_error r); by rewrite <- app_assoc.
    + intros status size. rewrite Hb, Hb1. cbn [List.filter].
      destruct (lands_in codes status size r); by rewrite <- app_assoc.
Qed.

Lemma tally_partition codes rs :
  Z.of_nat (length rs) =
  tally (is_valid codes) rs + tally has_error rs + tally (is_rejected codes) rs.
Proof.
  induction rs as [| r rs IH]; [done |].
  rewrite !tally_cons. cbn [length]. rewrite Nat2Z.inj_succ, IH.
  unfold is_valid, is_rejected.
  destruct (has_error r), (accepted codes r); cbn [negb andb]; lia.
Qed.

Lemma tally_zero f rs : tally f rs = 0 ↔ Forall (λ r, f r = false) rs.
Proof.
  induction rs as [| r rs IH].
  - split; [constructor | done].
  - rewrite tally_cons, Forall_cons, <- IH.
    assert (0 ≤ tally f rs) by (unfold tally; lia).
    destruct (f r); split.
    + lia.
    + by intros [? ?].
    + intros. split; [done | lia].
    + intros [_ ?]. lia.
Qed.

Lemma is_failure_has_error r : is_failure r → has_error r = true.
Proof. intros (e & He & Ht & _). unfold has_error. by rewrite He. Qed.

Lemma is_success_no_error r : is_success r → has_error r = false.
Proof. intros (st & sz & _ & _ & He). unfold has_error. by rewrite He. Qed.

(** Among probe outcomes, the rejected ones are the Successes whose status
    is not accepted. *)
Lemma is_rejected_success codes r :
  is_success r ∨ is_failure r →
  is_rejected codes r = true ↔
  is_success r ∧ ∃ status, res_status r = Some status ∧ status ∉ codes.
Proof.
  intros Hshape. unfold is_rejected, accepted. split.
  - intros [Hne Hna]%andb_prop. destruct Hshape as [Hs | Hf].
    + split; [done |]. destruct Hs as (status & size & Hst & _).
      rewrite Hst in Hna |- *. exists status. split; [done |].
      apply negb_true_iff, bool_decide_eq_false in Hna. done.
    + apply is_failure_has_error in Hf. rewrite Hf in Hne. done.
  - intros (Hs & status & Hst & Hnin).
    rewrite (is_success_no_error _ Hs), Hst.
    by rewrite bool_decide_eq_false_2.
Qed.

(** C1. Folding one probe outcome into the result set.  A Failure is
    appended to the failure sequence and counted in [errors] (and in
    [total]); nothing else changes.  A Success whose status is accepted is
    counted in [valid] (and in [total]) and its URL is appended to the
    bucket of its status and size; no other bucket changes.  A Success
    whose status is not accepted is counted in [total] only: the buckets,
    the failure sequence and the other counters stay as they were. *)
Theorem fold_result_by_outcome (codes : gset Z) (self : URLChecker) (r : result) :
  (is_failure r →
     fold_result codes self r =
     Checker (results self) (errors self ++ [r])
             (stats_total self + 1) (stats_valid self) (stats_errors self + 1)) ∧
  (is_success r → ∀ status, res_status r = Some status → status ∈ codes →
     let self' := fold_result codes self r in
     stats_valid self' = stats_valid self + 1 ∧
     stats_total self' = stats_total self + 1 ∧
     stats_errors self' = stats_errors self ∧
     errors self' = errors self ∧
     bucket (results self') status (res_size r) =
       bucket (results self) status (res_size r) ++ [res_url r] ∧
     ∀ status' size', status' ≠ status ∨ size' ≠ res_size r →
       bucket (results self') status' size' = bucket (results self) status' size') ∧
  (is_success r → ∀ status, res_status r = Some status → status ∉ codes →
     fold_result codes self r =
     Checker (results self) (errors self)
             (stats_total self + 1) (stats_valid self) (stats_errors self)).
Proof.
  split; [| split].
  - intros Hf%is_failure_has_error. unfold fold_result. by rewrite Hf.
  - intros Hs%is_success_no_error status Hst Hin.
    unfold fold_result. rewrite Hs, Hst.
    rewrite bool_decide_eq_true_2 by done. cbn.
    repeat split; [apply bucket_append_same |].
    intros. by apply bucket_append_other.
  - intros Hs%is_success_no_error status Hst Hin.
    unfold fold_result. rewrite Hs, Hst.
    by rewrite bool_decide_eq_false_2.
Qed.

Section RunTheorems.

Variable py_int : string → Z + string.
Variable args : Args.
Variable send : transport.

Lemma process_urls_inv self urls self' :
  process_urls py_int args send self urls = Completed self' →
  ∃ rs, collect py_int args send urls = Completed rs ∧
        self' = foldl (fold_result (included_codes py_int args)) self rs ∧
        length rs = length urls.
Proof.
  unfold process_urls.
  destruct (collect py_int args send urls) as [rs | e |] eqn:Hc; try done.
  intros [= <-]. exists rs. repeat split.
  apply collect_in_order in Hc. symmetry. by eapply Forall2_length.
Qed.

(** C2. A completed run on [N] URLs has produced exactly [N] probe
    outcomes, one from the probe of each URL, and its counters satisfy
    [total = valid + errors + (the number of Success outcomes whose status
    is not accepted)]. *)
Theorem run_counts (urls : list string) (self' : URLChecker) :
  process_urls py_int args send init urls = Completed self' →
  ∃ rs : list result,
    collect py_int args send urls = Completed rs ∧
    length rs = length urls ∧
    Forall (λ r, is_success r ∨ is_failure r) rs ∧
    stats_total self' =
      stats_valid self' + stats_errors self' +
      tally (is_rejected (included_codes py_int args)) rs.
Proof.
  intros (rs & Hc & -> & Hlen)%process_urls_inv. exists rs.
  split; [done |]. split; [done |]. split.
  - apply collect_in_order in Hc. clear Hlen.
    induction Hc as [| u r us rs Hr _ IH]; constructor; [| done].
    destruct (check_url_returns py_int args send u 0) as (r' & Hr' & Hshape).
    rewrite Hr in Hr'. by injection Hr' as ->.
  - destruct (aggregate_effect (included_codes py_int args) rs init)
      as (Ht & He & Hv & _).
    cbn zeta in *. rewrite Ht, He, Hv. cbn [init stats_total stats_valid stats_errors].
    pose proof (tally_partition (included_codes py_int args) rs). lia.
Qed.

(** C3 (amended). After a completed run on [N] URLs, [total = N], and
    [valid + errors] is [N] less the number of Success outcomes whose
    status is not accepted; so [total = valid + errors] holds exactly when
    every Success has an accepted status. *)
Theorem run_totals (urls : list string) (self' : URLChecker) :
  process_urls py_int args send init urls = Completed self' →
  stats_total self' = Z.of_nat (length urls) ∧
  ∃ rs : list result,
    collect py_int args send urls = Completed rs ∧
    stats_valid self' + stats_errors self' =
      Z.of_nat (length urls) -
      tally (is_rejected (included_codes py_int args)) rs ∧
    (stats_total self' = stats_valid self' + stats_errors self' ↔
     Forall (λ r, is_rejected (included_codes py_int args) r = false) rs).
Proof.
  intros (rs & Hc & -> & Hlen)%process_urls_inv.
  destruct (aggregate_effect (included_codes py_int args) rs init)
    as (Ht & He & Hv & _).
  cbn zeta in *. rewrite Ht, He, Hv. cbn [init stats_total stats_valid stats_errors].
  pose proof (tally_partition (included_codes py_int args) rs) as Hp.
  split; [lia |]. exists rs. repeat split; [done | lia | |].
  - intros H. apply tally_zero. lia.
  - intros H%tally_zero. lia.
Qed.

(** C10. The outcomes come in input order.  Whatever the order in which
    the tasks of a batch move and finish, [gather] returns the outcome of
    the [i]-th URL of the batch at position [i]; and the outcomes a
    completed run collects are, position by position, the outcomes of the
    probes of the input URLs.  Hence the failure sequence is the Failures
    in input order, and each bucket holds its URLs in input order. *)
Theorem outcomes_in_input_order (self : URLChecker) (urls : list string)
    (rs : list result) :
  (∀ sem batch s brs,
     rtc (step (check_url py_int args) send) (Loop sem (spawn batch)) s →
     gather (check_url py_int args) send (tasks s) = Some (inr brs) →
     Forall2 (λ u r, exec send 0 (check_url py_int args u) = inr r) batch brs) ∧
  (collect py_int args send urls = Completed rs →
   length rs = length urls ∧
   (∀ i url, urls !! i = Some url →
      ∃ r, rs !! i = Some r ∧
           exec send 0 (check_url py_int args url) = inr r) ∧
   ∃ self',
     process_urls py_int args send self urls = Completed self' ∧
     errors self' = errors self ++ List.filter has_error rs ∧
     ∀ status size,
       bucket (results self') status size =
       bucket (results self) status size ++
       map res_url
         (List.filter (lands_in (included_codes py_int args) status size) rs)).
Proof.
  split.
  - intros sem batch s brs. apply gather_in_task_order.
  - intros Hc. pose proof (collect_in_order _ _ _ _ _ Hc) as Hord.
    split; [symmetry; by eapply Forall2_length |]. split.
    + intros i url Hi. by eapply Forall2_lookup_l in Hord.
    + exists (foldl (fold_result (included_codes py_int args)) self rs).
      unfold process_urls. rewrite Hc. split; [done |].
      destruct (aggregate_effect (included_codes py_int args) rs self)
        as (_ & _ & _ & Hl & Hb).
      by split.
Qed.

End RunTheorems.

(** ** Concrete runs *)

Lemma string_length_app s t :
  String.length (s +:+ t) = (String.length s + String.length t)%nat.
Proof. induction s as [| c s IH]; simpl; [done | by f_equal]. Qed.

(** C5, counterexample to the claim as first stated.
    HEAD answers 405 and GET answers 200 with the Content-Length [abc]:
    the outcome is not a Success with status 200 but the OtherError
    failure of the [ValueError] that [int] raised. *)
Lemma refused_head_unreadable_length :
  example_net 0%nat (head_request default_args "http://f")
    = inr (Response 405 None) ∧
  example_net 1%nat (get_request default_args "http://f")
    = inr (Response 200 (Some "abc")) ∧
  exec example_net 0 (check_url int_decimal default_args "http://f")
    = inr (Result "http://f" None None
             (Some "Error: invalid literal for int() with base 10: 'abc'")) ∧
  ¬ ∃ r, exec example_net 0 (check_url int_decimal default_args "http://f")
           = inr r ∧ res_status r = Some 200.
Proof.
  split; [done |]. split; [done |]. split; [by vm_compute |].
  intros (r & Hr & Hs). vm_compute in Hr. injection Hr as <-. discriminate.
Qed.

(** C7, counterexample to the claim as first stated.
    A timeout whose text is not empty: the error of the Failure is the
    bare [Timeout], which does not end with the text of the exception. *)
Lemma timeout_drops_detail :
  exec example_net 0 (probe_body int_decimal default_args "http://t")
    = inl (Exn TimeoutError "[Errno 110] Connection timed out") ∧
  exec example_net 0 (check_url int_decimal default_args "http://t")
    = inr (Result "http://t" None None (Some "Timeout")) ∧
  ¬ ∃ label : string,
      "Timeout" = label +:+ str_prefix 100 "[Errno 110] Connection timed out".
Proof.
  split; [by vm_compute |]. split; [by vm_compute |].
  intros (label & H). apply (f_equal String.length) in H.
  rewrite string_length_app in H.
  assert (String.length (str_prefix 100 "[Errno 110] Connection timed out")
          = 32%nat) as Hl by (by vm_compute).
  rewrite Hl in H. cbn [String.length] in H. lia.
Qed.

(** C8, counterexample to the claim as first stated.
    A response whose Content-Length is [abc]: [int] refuses it, and the
    outcome is not a Success of size 0 but the OtherError failure. *)
Lemma unreadable_length_is_failure :
  settles_on default_args example_net "http://g" (Response 200 (Some "abc")) ∧
  int_decimal "abc" = inr "invalid literal for int() with base 10: 'abc'" ∧
  exec example_net 0 (check_url int_decimal default_args "http://g")
    = inr (Result "http://g" None None
             (Some "Error: invalid literal for int() with base 10: 'abc'")) ∧
  ¬ ∃ r, exec example_net 0 (check_url int_decimal default_args "http://g")
           = inr r ∧ is_success r ∧ res_size r = Some 0.
Proof.
  split; [by apply settles_head |]. split; [by vm_compute |].
  split; [by vm_compute |].
  intros (r & Hr & _ & Hs). vm_compute in Hr. injection Hr as <-. discriminate.
Qed.

(** C3, counterexample to the claim as first stated.
    One URL answering 404: [total] is 1 while [valid] and [errors] are 0,
    so [total] is not [valid + errors], and [valid + errors] is not the
    number of URLs dispatched. *)
Lemma total_exceeds_valid_plus_errors :
  process_urls int_decimal default_args example_net init ["http://b"]
    = Completed (Checker ∅ [] 1 0 0) ∧
  stats_total (Checker ∅ [] 1 0 0) ≠
    stats_valid (Checker ∅ [] 1 0 0) + stats_errors (Checker ∅ [] 1 0 0) ∧
  stats_valid (Checker ∅ [] 1 0 0) + stats_errors (Checker ∅ [] 1 0 0) ≠ 1.
Proof. split; [by vm_compute | done]. Qed.

(** The run of the end-to-end scenario: [valid = 2], [errors = 1],
    [total = 4]. *)
Lemma scenario_run :
  process_urls int_decimal default_args example_net init scenario
  = Completed scenario_result.
Proof. by vm_compute. Qed.

Lemma scenario_collect :
  collect int_decimal default_args example_net scenario
  = Completed scenario_outcomes.
Proof. by vm_compute. Qed.

(** C1 at an instance: a timeout Failure, an accepted Success and a 404 Success folded into a fresh checker. *)
Lemma fold_result_by_outcome_witness :
  fold_result default_status_codes init (error_result "http://c" "Timeout")
    = Checker ∅ [error_result "http://c" "Timeout"] 1 0 1 ∧
  bucket (results (fold_result default_status_codes init
                     (Result "http://a" (Some 200) (Some 120) None)))
         200 (Some 120) = ["http://a"] ∧
  fold_result default_status_codes init
      (Result "http://b" (Some 404) (Some 0) None)
    = Checker ∅ [] 1 0 0.
Proof.
  split; [| split].
  - apply (proj1 (fold_result_by_outcome default_status_codes init
                    (error_result "http://c" "Timeout"))).
    exists "Timeout". repeat split; reflexivity.
  - apply (proj1 (proj2 (fold_result_by_outcome default_status_codes init
                    (Result "http://a" (Some 200) (Some 120) None)))).
    + exists 200, 120. repeat split; reflexivity.
    + reflexivity.
    + apply (bool_decide_unpack _). vm_compute. reflexivity.
  - apply (proj2 (proj2 (fold_result_by_outcome default_status_codes init
                    (Result "http://b" (Some 404) (Some 0) None))) ) with 404.
    + exists 404, 0. repeat split; reflexivity.
    + reflexivity.
    + apply (bool_decide_unpack _). vm_compute. reflexivity.
Defined.

(** C2 at an instance: the end-to-end scenario. *)
Lemma run_counts_witness :
  ∃ rs : list result,
    collect int_decimal default_args example_net scenario = Completed rs ∧
    length rs = length scenario ∧
    Forall (λ r, is_success r ∨ is_failure r) rs ∧
    stats_total scenario_result =
      stats_valid scenario_result + stats_errors scenario_result +
      tally (is_rejected (included_codes int_decimal default_args)) rs.
Proof.
  apply (run_counts int_decimal default_args example_net scenario
           scenario_result).
  vm_compute. reflexivity.
Defined.

(** C3 at an instance: the end-to-end scenario. *)
Lemma run_totals_witness :
  stats_total scenario_result = Z.of_nat (length scenario) ∧
  ∃ rs : list result,
    collect int_decimal default_args example_net scenario = Completed rs ∧
    stats_valid scenario_result + stats_errors scenario_result =
      Z.of_nat (length scenario) -
      tally (is_rejected (included_codes int_decimal default_args)) rs ∧
    (stats_total scenario_result =
       stats_valid scenario_result + stats_errors scenario_result ↔
     Forall (λ r, is_rejected (included_codes int_decimal default_args) r
                  = false) rs).
Proof.
  apply (run_totals int_decimal default_args example_net scenario
           scenario_result).
  vm_compute. reflexivity.
Defined.

(** C5 at an instance: 405 on HEAD, then 200 with 512 bytes on GET. *)
Lemma head_refused_uses_get_witness :
  requests example_net 0 (check_url int_decimal default_args "http://e")
    !! 1%nat = Some (Request GET "http://e" 10 false) ∧
  exec example_net 0 (check_url int_decimal default_args "http://e")
    = inr (Result "http://e" (Some 200) (Some 512) None).
Proof.
  destruct (head_refused_uses_get int_decimal default_args example_net
              "http://e" (Response 405 None)) as [H1 H2];
    [reflexivity | reflexivity |].
  split; [exact H1 |].
  apply (H2 (Response 200 (Some "512")) (Some 512)); reflexivity.
Defined.

(** C6 at an instance: a refused header length, a timeout on HEAD, and an address that does not connect. *)
Lemma failure_classification_witness :
  exec example_net 0 (check_url int_decimal default_args "http://g")
    = inr (Result "http://g" None None
             (Some "Error: invalid literal for int() with base 10: 'abc'")) ∧
  exec example_net 0 (check_url int_decimal default_args "http://c")
    = inr (Result "http://c" None None (Some "Timeout")) ∧
  exec example_net 0 (check_url int_decimal default_args "http://x")
    = inr (Result "http://x" None None
             (Some "DNS/Connection: Cannot connect to host")).
Proof.
  split; [| split].
  - apply (proj1 (failure_classification int_decimal default_args example_net
                    "http://g")
             (Exn ValueError "invalid literal for int() with base 10: 'abc'")).
    vm_compute. reflexivity.
  - apply (proj1 (proj2 (failure_classification int_decimal default_args
                           example_net "http://c"))
             0%nat (head_request default_args "http://c")
             (Exn TimeoutError "")); reflexivity.
  - apply (proj2 (proj2 (failure_classification int_decimal default_args
                           example_net "http://x"))
             (Exn ClientConnectorError "Cannot connect to host")
             (Exn ClientConnectorError "Cannot connect to host"));
      reflexivity.
Defined.

(** C7 at an instance: an address that does not connect. *)
Lemma failure_detail_witness :
  ∃ r, exec example_net 0 (check_url int_decimal default_args "http://x")
         = inr r ∧
    ∃ label detail rest,
      res_error r = Some (label +:+ detail) ∧
      label = "DNS/Connection: " ∧
      "Cannot connect to host" = detail +:+ rest ∧
      String.length detail = 22%nat ∧
      (String.length detail ≤ 100)%nat.
Proof.
  apply (failure_detail int_decimal default_args example_net "http://x"
           (Exn ClientConnectorError "Cannot connect to host")).
  vm_compute. reflexivity.
Defined.

(** C8 at an instance: a Content-Length of 120 and a response without one. *)
Lemma size_from_content_length_witness :
  exec example_net 0 (check_url int_decimal default_args "http://a")
    = inr (Result "http://a" (Some 200) (Some 120) None) ∧
  exec example_net 0 (check_url int_decimal default_args "http://b")
    = inr (Result "http://b" (Some 404) (Some 0) None).
Proof.
  split.
  - apply (size_from_content_length int_decimal default_args example_net
             "http://a" (Response 200 (Some "120"))).
    apply settles_head; reflexivity.
  - apply (size_from_content_length int_decimal default_args example_net
             "http://b" (Response 404 None)).
    apply settles_head; reflexivity.
Defined.

(** C9 at an instance: the scenario on two permits, three moves into the run. *)
Lemma permit_pool_safe_witness :
  let body := check_url int_decimal default_args in
  let s := drive body example_net 3 (Loop 2 (spawn scenario)) in
  count in_flight (tasks s) ≤ 2 ∧
  (0 ≤ permits s ∧ permits s + count holds_permit (tasks s) = 2) ∧
  (forallb is_done (tasks s) = true → permits s = 2) ∧
  (forallb is_done (tasks s) = false → ∃ s', step body example_net s s') ∧
  (∀ n s', nsteps (step body example_net) n s s' →
           (n ≤ total_weight body example_net (tasks s))%nat).
Proof.
  apply (permit_pool_safe (check_url int_decimal default_args) example_net
           2 scenario).
  - lia.
  - apply drive_steps.
Defined.

(** C10 at an instance: the end-to-end scenario. *)
Lemma outcomes_in_input_order_witness :
  length scenario_outcomes = length scenario ∧
  (∀ i url, scenario !! i = Some url →
     ∃ r, scenario_outcomes !! i = Some r ∧
          exec example_net 0 (check_url int_decimal default_args url) = inr r) ∧
  ∃ self',
    process_urls int_decimal default_args example_net init scenario
      = Completed self' ∧
    errors self' = errors init ++ List.filter has_error scenario_outcomes ∧
    ∀ status size,
      bucket (results self') status size =
      bucket (results init) status size ++
      map res_url
        (List.filter
           (lands_in (included_codes int_decimal default_args) status size)
           scenario_outcomes).
Proof.
  apply (proj2 (outcomes_in_input_order int_decimal default_args example_net
                  init scenario scenario_outcomes)).
  vm_compute. reflexivity.
Defined.

(** ** Splitting, and the extension of a URL *)














Section ExtensionFacts.

Variable url_path : string → string.


End ExtensionFacts.

(** ** The order of the report *)

Global Instance key_le_total : Total key_le.
Proof. intros x y. unfold key_le. lia. Qed.

Global Instance key_le_trans : Transitive key_le.
Proof. intros x y z. unfold key_le. lia. Qed.

Global Instance key_le_antisymm : AntiSymm (=) key_le.
Proof. intros x y. unfold key_le. lia. Qed.

Lemma StronglySorted_lookup {A} (R : relation A) l i j a b :
  StronglySorted R l → (i < j)%nat →
  l !! i = Some a → l !! j = Some b → R a b.
Proof.
  intros Hl. revert i j. induction Hl as [| x l _ IH Hx]; [done |].
  intros [| i] [| j] Hij Ha Hb; try lia; simpl in *.
  - injection Ha as <-. rewrite Forall_forall in Hx. apply Hx.
    by eapply list_elem_of_lookup_2.
  - apply (IH i j); [lia | done | done].
Qed.

Lemma status_rank_zero x : 0 ≤ status_rank x ∧ (status_rank x = 0 ↔ x = 200).
Proof.
  unfold status_rank. destruct (Z.eqb_spec x 200); [lia |].
  destruct ((300 <=? x) && (x <? 400)); [lia |].
  destruct (x =? 403); lia.
Qed.

(** X2. The statuses of the report are the keys of the result set, each
    once, in the order of the [sorted] key: 200 before the codes 300 to
    399, these before 403, 403 before all other codes, and within a group
    in ascending order; so 200, when present, comes first.  The order does
    not depend on the order in which the keys were inserted: it is the
    only sorted arrangement of the keys. *)
Theorem sorted_statuses_spec (rs : gmap Z (gmap (option Z) (list string))) :
  NoDup (sorted_statuses rs) ∧
  (∀ x, x ∈ sorted_statuses rs ↔ is_Some (rs !! x)) ∧
  (∀ i j a b,
     (i < j)%nat →
     sorted_statuses rs !! i = Some a → sorted_statuses rs !! j = Some b →
     status_rank a < status_rank b ∨ (status_rank a = status_rank b ∧ a < b)) ∧
  (∀ keys, keys ≡ₚ elements (dom rs) →
           merge_sort key_le keys = sorted_statuses rs) ∧
  (match rs !! 200 with
   | Some _ => head (sorted_statuses rs) = Some 200
   | None => 200 ∉ sorted_statuses rs
   end).
Proof.
  unfold sorted_statuses.
  pose proof (merge_sort_Permutation key_le (elements (dom rs))) as Hperm.
  pose proof (StronglySorted_merge_sort key_le (elements (dom rs))) as Hsorted.
  set (l := merge_sort key_le (elements (dom rs))) in *.
  assert (NoDup l) as Hnd by (rewrite Hperm; apply NoDup_elements).
  assert (∀ x, x ∈ l ↔ is_Some (rs !! x)) as Hin.
  { intros x. by rewrite Hperm, elem_of_elements, elem_of_dom. }
  split; [done |]. split; [done |]. split; [| split].
  - intros i j a b Hij Ha Hb.
    pose proof (StronglySorted_lookup _ _ _ _ _ _ Hsorted Hij Ha Hb) as Hle.
    assert (a ≠ b) as Hne.
    { intros ->. pose proof (NoDup_lookup _ _ _ _ Hnd Ha Hb). lia. }
    unfold key_le in Hle. lia.
  - intros keys Hkeys. apply (Sorted_unique key_le).
    + apply Sorted_merge_sort, _.
    + apply StronglySorted_Sorted, Hsorted.
    + by rewrite merge_sort_Permutation, Hkeys, Hperm.
  - destruct (rs !! 200) eqn:H200.
    + assert (200 ∈ l) as Hel by (apply Hin; by rewrite H200).
      apply list_elem_of_lookup in Hel as [j Hj].
      destruct l as [| h l'] eqn:Hl; [done |]. simpl. f_equal.
      destruct j as [| j]; [by injection Hj |].
      assert (key_le h 200) as Hle.
      { apply (StronglySorted_lookup key_le (h :: l') 0 (S j));
          [done | lia | done | done]. }
      unfold key_le in Hle.
      pose proof (status_rank_zero h) as [? Hh].
      pose proof (status_rank_zero 200) as [? H2].
      apply Hh. lia.
    + rewrite Hin, H200. by intros [? ?].
Qed.

(** ** The accepted codes, the batches, and how a run ends *)

Lemma elem_of_default_status_codes n :
  n ∈ default_status_codes ↔ n = 200 ∨ 300 ≤ n < 400 ∨ n = 403.
Proof.
  unfold default_status_codes.
  rewrite !elem_of_union, !elem_of_singleton, elem_of_list_to_set.
  rewrite list_elem_of_In, in_map_iff. split.
  - intros [[-> | (k & <- & Hk%in_seq)] | ->]; lia.
  - intros [-> | [Hn | ->]]; [by left; left | | by right].
    left; right. exists (Z.to_nat n). split; [lia |]. apply in_seq. lia.
Qed.

Section CodesFacts.

Variable py_int : string → Z + string.
Variable args : Args.

Lemma elem_of_added_codes n (base : gset Z) (items : list string) :
  n ∈ foldl (λ codes code,
               match py_int (strip code) with
               | inl m => codes ∪ {[ m ]}
               | inr _ => codes
               end) base items ↔
  n ∈ base ∨ ∃ code, code ∈ items ∧ py_int (strip code) = inl n.
Proof.
  revert base. induction items as [| item items IH]; intros base; simpl.
  - split; [by left |]. intros [? | (code & Hin & _)]; [done |].
    by apply elem_of_nil in Hin.
  - rewrite IH. split.
    + intros [Hb | (code & Hin & Hcode)].
      * destruct (py_int (strip item)) as [m |] eqn:Hitem; [| by left].
        apply elem_of_union in Hb as [Hb | ->%elem_of_singleton]; [by left |].
        right. exists item. split; [by left | done].
      * right. exists code. split; [by right | done].
    + intros [Hb | (code & Hin & Hcode)].
      * left. destruct (py_int (strip item)); [| done].
        apply elem_of_union. by left.
      * apply elem_of_cons in Hin as [-> | Hin].
        -- left. rewrite Hcode. apply elem_of_union. right.
           by apply elem_of_singleton.
        -- right. by exists code.
Qed.

(** X3. The accepted codes are 200, 300 to 399 and 403, and every integer
    that [int] reads from an item of [--include] (the items are separated
    by commas and stripped of blanks); an item that [int] refuses adds
    nothing and stops nothing, and no item removes a default. *)
Theorem included_codes_spec (n : Z) :
  n ∈ included_codes py_int args ↔
  (n = 200 ∨ 300 ≤ n < 400 ∨ n = 403) ∨
  ∃ include code,
    args_include args = Some include ∧ truthy include = true ∧
    code ∈ split_on "," include ∧ py_int (strip code) = inl n.
Proof.
  unfold included_codes.
  destruct (args_include args) as [include |].
  - destruct (truthy include) eqn:Ht.
    + rewrite elem_of_added_codes, elem_of_default_status_codes. split.
      * intros [? | (code & ? & ?)]; [by left |].
        right. by exists include, code.
      * intros [? | (inc & code & [= <-] & _ & ? & ?)]; [by left |].
        right. by exists code.
    + rewrite elem_of_default_status_codes. split; [by left |].
      intros [? | (inc & code & [= <-] & Ht' & _)]; [done | congruence].
  - rewrite elem_of_default_status_codes. split; [by left |].
    intros [? | (inc & code & ? & _)]; done.
Qed.

End CodesFacts.

Lemma lookup_map {A B} (f : A → B) (l : list A) i :
  map f l !! i = option_map f (l !! i).
Proof. revert i. induction l as [| x l IH]; intros [| i]; simpl; auto. Qed.

Lemma chunks_shape {A} (l : list A) (b i : nat) (chunk : list A) :
  (0 < b)%nat →
  map (λ i, slice l i (i + b))
      (map (λ k, k * b)%nat (seq 0 ((length l + b - 1) / b))) !! i = Some chunk →
  chunk = take b (drop (i * b) l) ∧
  (1 ≤ length chunk ≤ b)%nat ∧
  ((S i < (length l + b - 1) / b)%nat → length chunk = b).
Proof.
  intros Hb. rewrite !lookup_map.
  destruct (seq 0 ((length l + b - 1) / b) !! i) as [k |] eqn:Hk; [| done].
  apply lookup_seq in Hk as [-> Hi]. simpl. intros [= <-].
  unfold slice. replace (i * b + b - i * b)%nat with b by lia.
  split; [done |]. rewrite length_take, length_drop.
  pose proof (Nat.div_mod_eq (length l + b - 1) b) as Hdm.
  pose proof (Nat.mod_upper_bound (length l + b - 1) b) as Hm.
  split; [nia |]. intros Hlast. nia.
Qed.

Section EndFacts.

Variable py_int : string → Z + string.
Variable args : Args.
Variable send : transport.

(** X4. The dispatcher cuts the input into [ceil(N / 1000)] batches: batch
    [i] is the URLs [1000 i] to [1000 i + 999] of the input; no batch is
    empty, none has more than 1000 URLs, every batch but the last has
    exactly 1000, and the batches put end to end are the input (no URL is
    dropped, repeated or moved). *)
Theorem batches_shape (urls : list string) :
  concat (batches urls) = urls ∧
  length (batches urls) = ((length urls + 999) / 1000)%nat ∧
  ∀ i batch,
    batches urls !! i = Some batch →
    batch = take 1000 (drop (i * 1000) urls) ∧
    (1 ≤ length batch ≤ 1000)%nat ∧
    ((S i < length (batches urls))%nat → length batch = 1000%nat).
Proof.
  split; [apply batches_concat |].
  assert (length (batches urls) = ((length urls + 999) / 1000)%nat) as Hlen.
  { unfold batches, py_range, batch_size. rewrite !length_map, length_seq.
    f_equal. lia. }
  split; [done |]. intros i batch Hi. rewrite Hlen.
  replace (length urls + 999)%nat with (length urls + 1000 - 1)%nat by lia.
  apply chunks_shape; [lia | exact Hi].
Qed.

Lemma collect_nil :
  0 ≤ args_concurrency args → collect py_int args send [] = Completed [].
Proof.
  intros HK. unfold collect, Semaphore.
  destruct (Z.ltb_spec (args_concurrency args) 0); [lia | done].
Qed.

Lemma process_urls_by_concurrency (self : URLChecker) (urls : list string) :
  (args_concurrency args < 0 →
     process_urls py_int args send self urls =
     Raised (Exn ValueError "Semaphore initial value must be >= 0")) ∧
  (args_concurrency args = 0 → urls ≠ [] →
     process_urls py_int args send self urls = Hangs) ∧
  (args_concurrency args = 0 →
     process_urls py_int args send self [] = Completed self) ∧
  (0 < args_concurrency args →
     ∃ self', process_urls py_int args send self urls = Completed self').
Proof.
  unfold process_urls. split; [| split; [| split]].
  - intros HK. unfold collect, Semaphore.
    by destruct (Z.ltb_spec (args_concurrency args) 0); [| lia].
  - intros HK Hne. destruct urls as [| u urls]; [done |].
    by rewrite collect_hangs.
  - intros HK. rewrite collect_nil; [done | lia].
  - intros HK. destruct (collect_completes py_int args send urls HK) as (rs & ->).
    eauto.
Qed.

(** X5. How a run ends depends on [--concurrency] only.  A negative value
    makes [process_urls] raise the [ValueError] of [asyncio.Semaphore],
    whatever the URLs; with 0 and at least one URL no probe ever starts
    and the run never returns; with 0 and no URL it returns the checker
    unchanged; with a positive value it returns for every list of URLs and
    every network. *)
Theorem process_urls_ends (self : URLChecker) (urls : list string) :
  (args_concurrency args < 0 →
     process_urls py_int args send self urls =
     Raised (Exn ValueError "Semaphore initial value must be >= 0")) ∧
  (args_concurrency args = 0 → urls ≠ [] →
     process_urls py_int args send self urls = Hangs) ∧
  (args_concurrency args = 0 →
     process_urls py_int args send self [] = Completed self) ∧
  (0 < args_concurrency args →
     ∃ self', process_urls py_int args send self urls = Completed self').
Proof. apply process_urls_by_concurrency. Qed.

End EndFacts.

(** ** The requests of a probe *)

Section RequestFacts.

Variable py_int : string → Z + string.
Variable args : Args.
Variable send : transport.

Ltac along_probe :=
  unfold check_url, probe_body, settle, head_attempt, get_fallback;
  repeat (cbn;
    rewrite ?inner_clause_test;
    match goal with
    | H : ?x = _ |- context [match ?x with _ => _ end] => rewrite H
    | H : ?x = _ |- context [if ?x then _ else _] => rewrite H
    | |- context [send ?n ?rq] => destruct (send n rq) eqn:?
    | |- context [method_refused ?z] => destruct (method_refused z) eqn:?
    | |- context [is_ClientError ?e] => destruct (is_ClientError e) eqn:?
    | |- context [is_TimeoutError ?e] => destruct (is_TimeoutError e) eqn:?
    | |- context [is_ClientConnectorError ?e] =>
        destruct (is_ClientConnectorError e) eqn:?
    | |- context [size_of ?f ?c] =>
        let E := fresh "E" in
        destruct (size_of f c) eqn:E;
        [pose proof (size_of_not_ClientError _ _ _ E) |]
    end); cbn.

(** X6. A probe sends one HEAD and then at most two GETs, all for its own
    URL, with redirects disabled and the configured timeout.  A GET
    follows exactly when the HEAD was answered with status 405 or 501 or
    raised a [ClientError]; a second GET follows exactly when the HEAD was
    answered with 405 or 501 and the first GET raised a [ClientError].
    Nothing is retried beyond that. *)
Theorem probe_requests (url : string) :
  let head := Request HEAD url (args_timeout args) false in
  let get := Request GET url (args_timeout args) false in
  let sent := requests send 0 (check_url py_int args url) in
  (sent = [head] ∨ sent = [head; get] ∨ sent = [head; get; get]) ∧
  ((1 < length sent)%nat ↔
     (∃ r, send 0%nat head = inr r ∧ method_refused (resp_status r) = true) ∨
     (∃ e, send 0%nat head = inl e ∧ is_ClientError e = true)) ∧
  (length sent = 3%nat ↔
     ∃ r e, send 0%nat head = inr r ∧ method_refused (resp_status r) = true ∧
            send 1%nat get = inl e ∧ is_ClientError e = true).
Proof.
  intros head get sent. subst head get sent.
  change (Request HEAD url (args_timeout args) false)
    with (head_request args url).
  change (Request GET url (args_timeout args) false)
    with (get_request args url).
  along_probe.
  all: split; [auto |].
  all: split; split; try lia.
  all: try (intros _; eauto; fail).
  all: try (intros [(? & ? & ?) | (? & ? & ?)]; congruence).
  all: try (intros (? & ? & ? & ? & ? & ?); congruence).
  all: try (intros _; left; eexists; split; [reflexivity | done]).
  all: try (intros _; right; eexists; split; [reflexivity | done]).
  all: try (intros _; do 2 eexists; repeat split; done).
Qed.

(** The two ways a raised HEAD goes on. *)
Lemma check_url_head_raises (url : string) (e : exn) :
  send 0%nat (head_request args url) = inl e →
  if is_ClientError e then
    requests send 0 (check_url py_int args url)
      = [head_request args url; get_request args url] ∧
    exec send 0 (check_url py_int args url) =
    inr match send 1%nat (get_request args url) with
        | inl e' => error_result url (error_text e')
        | inr g =>
            match size_of py_int (resp_content_length g) with
            | inl e' => error_result url (error_text e')
            | inr size =>
                Result url (Some (resp_status g)) (Some (or_zero size)) None
            end
        end
  else
    requests send 0 (check_url py_int args url) = [head_request args url] ∧
    exec send 0 (check_url py_int args url)
      = inr (error_result url (error_text e)).
Proof.
  intros H0. destruct (is_ClientError e) eqn:He.
  - split; [by along_probe |].
    destruct (send 1%nat (get_request args url)) as [e' | g] eqn:H1.
    + rewrite exec_check_url.
      assert (exec send 0 (probe_body py_int args url) = inl e') as ->; [| done].
      by along_probe.
    + apply check_url_on_response. by apply settles_fallback with e.
  - split; [by along_probe |].
    rewrite exec_check_url.
    assert (exec send 0 (probe_body py_int args url) = inl e) as ->; [| done].
    by along_probe.
Qed.

(** X7. When the HEAD raises.  An exception that is not a [ClientError]
    (a timeout of the total timer, for one) ends the probe at once: no GET
    is sent and the Failure reports that exception.  A [ClientError] is
    never reported by itself: the probe sends a GET, and the outcome is
    that of the GET, the Success of its response or the Failure of the
    exception the GET raised. *)
Theorem head_raises (url : string) (e : exn) :
  send 0%nat (head_request args url) = inl e →
  if is_ClientError e then
    requests send 0 (check_url py_int args url)
      = [head_request args url; get_request args url] ∧
    exec send 0 (check_url py_int args url) =
    inr match send 1%nat (get_request args url) with
        | inl e' => error_result url (error_text e')
        | inr g =>
            match size_of py_int (resp_content_length g) with
            | inl e' => error_result url (error_text e')
            | inr size =>
                Result url (Some (resp_status g)) (Some (or_zero size)) None
            end
        end
  else
    requests send 0 (check_url py_int args url) = [head_request args url] ∧
    exec send 0 (check_url py_int args url)
      = inr (error_result url (error_text e)).
Proof. apply check_url_head_raises. Qed.

(** X8. A Success is never made up: its status is the status of a response
    the probe received and settled on, its size is the Content-Length of
    that response as [int] reads it (0 when absent, empty or zero), and
    its URL is the probe's. *)
Theorem success_provenance (url : string) (r : result) :
  exec send 0 (check_url py_int args url) = inr r →
  is_success r →
  ∃ resp size,
    settles_on args send url resp ∧
    size_of py_int (resp_content_length resp) = inr size ∧
    r = Result url (Some (resp_status resp)) (Some (or_zero size)) None.
Proof.
  intros Hr (st & sz & Hst & _).
  destruct (send 0%nat (head_request args url)) as [e0 | r0] eqn:H0.
  - pose proof (check_url_head_raises url e0 H0) as Hh.
    destruct (is_ClientError e0) eqn:He0.
    + destruct Hh as [_ Hx]. rewrite Hx in Hr. injection Hr as <-.
      destruct (send 1%nat (get_request args url)) as [e1 | g] eqn:H1; [done |].
      destruct (size_of py_int (resp_content_length g)) as [e' | size] eqn:Hs;
        [done |].
      exists g, size. split; [by apply settles_fallback with e0 | done].
    + destruct Hh as [_ Hx]. rewrite Hx in Hr. by injection Hr as <-.
  - destruct (method_refused (resp_status r0)) eqn:Href.
    + destruct (send 1%nat (get_request args url)) as [e1 | g] eqn:H1.
      * destruct (is_ClientError e1) eqn:He1.
        -- destruct (send 2%nat (get_request args url)) as [e2 | g2] eqn:H2.
           ++ exfalso. revert Hr. along_probe; intros [= <-]; done.
           ++ assert (settles_on args send url g2) as Hs2
                by (by apply settles_retry with r0 e1).
              rewrite (check_url_on_response _ _ _ _ _ Hs2) in Hr.
              injection Hr as <-.
              destruct (size_of py_int (resp_content_length g2)) as [e' | size]
                eqn:Hs; [done |].
              by exists g2, size.
        -- exfalso. revert Hr. along_probe; intros [= <-]; done.
      * assert (settles_on args send url g) as Hs1
          by (by apply settles_get with r0).
        rewrite (check_url_on_response _ _ _ _ _ Hs1) in Hr. injection Hr as <-.
        destruct (size_of py_int (resp_content_length g)) as [e' | size] eqn:Hs;
          [done |].
        by exists g, size.
    + assert (settles_on args send url r0) as Hs0 by (by apply settles_head).
      rewrite (check_url_on_response _ _ _ _ _ Hs0) in Hr. injection Hr as <-.
      destruct (size_of py_int (resp_content_length r0)) as [e' | size] eqn:Hs;
        [done |].
      by exists r0, size.
Qed.

End RequestFacts.

(** ** What the aggregator keeps *)

Lemma filter_Permutation {A} (f : A → bool) (l l' : list A) :
  l ≡ₚ l' → List.filter f l ≡ₚ List.filter f l'.
Proof.
  induction 1 as [| x l l' _ IH | x y l | l1 l2 l3 _ IH1 _ IH2]; simpl.
  - done.
  - destruct (f x); [by constructor | done].
  - destruct (f x), (f y); try done. apply perm_swap.
  - by etrans.
Qed.

Lemma tally_Permutation f rs rs' : rs ≡ₚ rs' → tally f rs = tally f rs'.
Proof.
  intros H. unfold tally. f_equal.
  apply Permutation_length. by apply filter_Permutation.
Qed.

(** X9. The counters do not depend on the order in which the outcomes are
    folded, and the failure sequence and every bucket hold the same
    entries, as often, in whatever order the outcomes came. *)
Theorem aggregate_any_order (codes : gset Z) (self : URLChecker)
    (rs rs' : list result) :
  rs ≡ₚ rs' →
  let a := foldl (fold_result codes) self rs in
  let b := foldl (fold_result codes) self rs' in
  stats_total a = stats_total b ∧
  stats_valid a = stats_valid b ∧
  stats_errors a = stats_errors b ∧
  errors a ≡ₚ errors b ∧
  ∀ status size,
    bucket (results a) status size ≡ₚ bucket (results b) status size.
Proof.
  intros Hperm a b. subst a b.
  destruct (aggregate_effect codes rs self) as (Ht & He & Hv & Hl & Hb).
  destruct (aggregate_effect codes rs' self) as (Ht' & He' & Hv' & Hl' & Hb').
  cbn zeta in *.
  rewrite Ht, Ht', He, He', Hv, Hv', Hl, Hl'.
  rewrite (Permutation_length Hperm).
  rewrite (tally_Permutation _ _ _ Hperm), (tally_Permutation has_error _ _ Hperm).
  repeat split; [by rewrite (filter_Permutation has_error _ _ Hperm) |].
  intros status size. rewrite Hb, Hb'.
  apply Permutation_app; [done |]. apply Permutation_map.
  by apply filter_Permutation.
Qed.

Lemma tidy_init codes : tidy codes init.
Proof.
  unfold tidy, init. simpl.
  refine (conj _ (conj _ (conj _ (conj _ _)))); done.
Qed.

Lemma tidy_fold codes self r :
  is_success r ∨ is_failure r →
  tidy codes self → tidy codes (fold_result codes self r).
Proof.
  intros Hshape (Herr & Hall & Hres & Hv & Hsum). unfold fold_result.
  destruct (has_error r) eqn:Hhe.
  { unfold tidy. simpl. rewrite length_app, Forall_app. simpl.
    refine (conj _ (conj _ (conj _ (conj _ _)))); try done; try lia.
    split; [done | by repeat constructor]. }
  destruct Hshape as [(st & sz & Hst & Hsz & _) | Hf];
    [| apply is_failure_has_error in Hf; congruence].
  rewrite Hst. destruct (bool_decide (st ∈ codes)) eqn:Hin.
  - apply bool_decide_eq_true in Hin.
    unfold tidy. simpl.
    refine (conj _ (conj _ (conj _ (conj _ _)))); try done; try lia.
    intros status inner. unfold bucket_append.
    destruct (decide (status = st)) as [-> | Hne];
      [rewrite lookup_insert_eq | by (rewrite lookup_insert_ne by done;
                                      apply Hres)].
    intros [= <-].
    refine (conj _ (conj _ (conj _ _))).
    + done.
    + apply insert_non_empty.
    + rewrite Hsz, lookup_insert_ne by done.
      destruct (results self !! st) as [inner0 |] eqn:Hi; simpl; [| done].
      by apply Hres in Hi as (_ & _ & ? & _).
    + intros size urls.
      destruct (decide (size = res_size r)) as [-> | Hne].
      * rewrite lookup_insert_eq. intros [= <-]. by destruct (bucket _ _ _).
      * rewrite lookup_insert_ne by done.
        destruct (results self !! st) as [inner0 |] eqn:Hi; simpl; [| done].
        apply Hres in Hi as (_ & _ & _ & Hne'). apply Hne'.
  - unfold tidy. simpl.
    refine (conj _ (conj _ (conj _ (conj _ _)))); try done; lia.
Qed.

Section KeepFacts.

Variable py_int : string → Z + string.
Variable args : Args.
Variable send : transport.

Lemma collect_shapes urls rs :
  collect py_int args send urls = Completed rs →
  Forall (λ r, is_success r ∨ is_failure r) rs.
Proof.
  intros Hc%collect_in_order.
  induction Hc as [| u r us rs Hr _ IH]; constructor; [| done].
  destruct (check_url_returns py_int args send u 0) as (r' & Hr' & Hshape).
  rewrite Hr in Hr'. by injection Hr' as ->.
Qed.

Lemma tidy_run self urls self' :
  tidy (included_codes py_int args) self →
  process_urls py_int args send self urls = Completed self' →
  tidy (included_codes py_int args) self'.
Proof.
  intros Htidy (rs & Hc & -> & _)%process_urls_inv.
  apply collect_shapes in Hc. revert self Htidy.
  induction Hc as [| r rs Hr _ IH]; intros self Htidy; [done |].
  simpl. apply IH. by apply tidy_fold.
Qed.

(** X10. After a completed run on a fresh checker: [errors] is the length
    of the failure sequence, whose entries all carry an error; every
    status under which a URL is filed is an accepted code; every status
    of the result set has a bucket, every bucket has a URL, and no bucket
    is filed under the size [None]; and [valid + errors] does not exceed
    [total]. *)
Theorem result_set_is_tidy (urls : list string) (self' : URLChecker) :
  process_urls py_int args send init urls = Completed self' →
  stats_errors self' = Z.of_nat (length (errors self')) ∧
  Forall (λ r, has_error r = true) (errors self') ∧
  (∀ status inner,
     results self' !! status = Some inner →
     status ∈ included_codes py_int args ∧ inner ≠ ∅ ∧ inner !! None = None ∧
     ∀ size urls, inner !! size = Some urls → urls ≠ []) ∧
  0 ≤ stats_valid self' ∧
  stats_valid self' + stats_errors self' ≤ stats_total self'.
Proof. apply tidy_run, tidy_init. Qed.

Lemma probes_functional urls rs rs' :
  Forall2 (λ u r, exec send 0 (check_url py_int args u) = inr r) urls rs →
  Forall2 (λ u r, exec send 0 (check_url py_int args u) = inr r) urls rs' →
  rs = rs'.
Proof.
  intros H. revert rs'. induction H as [| u r us rs Hr _ IH]; intros rs' H'.
  - by inversion H'.
  - inversion H' as [| ? r' ? rs'' Hr' Hrest]; subst.
    rewrite Hr in Hr'. injection Hr' as ->. f_equal. by apply IH.
Qed.

Lemma collect_app urls1 urls2 rs1 rs2 :
  collect py_int args send urls1 = Completed rs1 →
  collect py_int args send urls2 = Completed rs2 →
  collect py_int args send (urls1 ++ urls2) = Completed (rs1 ++ rs2).
Proof.
  intros H1 H2.
  destruct (Z.lt_trichotomy (args_concurrency args) 0) as [HK | [HK | HK]].
  - unfold collect, Semaphore in H1.
    by destruct (Z.ltb_spec (args_concurrency args) 0); [| lia].
  - destruct urls1 as [| u1 urls1]; [| by rewrite collect_hangs in H1].
    destruct urls2 as [| u2 urls2]; [| by rewrite collect_hangs in H2].
    rewrite collect_nil in H1, H2 |- * by lia. by simplify_eq.
  - destruct (collect_completes py_int args send (urls1 ++ urls2) HK)
      as (rs & Hc).
    rewrite Hc. f_equal. apply collect_in_order in Hc, H1, H2.
    eapply probes_functional; [exact Hc |]. by apply Forall2_app.
Qed.

(** X11. A checker accumulates: the counters, the failure sequence and the
    buckets are not reset between runs, and two completed runs in a row on
    the same checker leave it as one run on the two lists put end to
    end does. *)
Theorem runs_accumulate (self s1 s2 : URLChecker) (urls1 urls2 : list string) :
  process_urls py_int args send self urls1 = Completed s1 →
  process_urls py_int args send s1 urls2 = Completed s2 →
  process_urls py_int args send self (urls1 ++ urls2) = Completed s2.
Proof.
  intros (rs1 & H1 & -> & _)%process_urls_inv
         (rs2 & H2 & -> & _)%process_urls_inv.
  unfold process_urls. rewrite (collect_app _ _ _ _ H1 H2).
  by rewrite foldl_app.
Qed.

End KeepFacts.

(** ** Reading the URLs, and [main] *)








Lemma unique_from_elem seen urls u :
  u ∈ unique_from seen urls ↔ u ∈ urls ∧ u ∉ seen.
Proof.
  revert seen. induction urls as [| v urls IH]; intros seen; simpl.
  - split; [by intros ?%elem_of_nil | by intros [?%elem_of_nil _]].
  - destruct (bool_decide_reflect (v ∈ seen)) as [Hin | Hnin].
    + rewrite IH, elem_of_cons. split; [naive_solver |].
      intros [[-> | ?] ?]; done.
    + rewrite !elem_of_cons, IH. split.
      * intros [-> | [? ?]]; [by split; [left |] |].
        split; [by right | set_solver].
      * intros [[-> | ?] ?]; [by left |].
        destruct (decide (u = v)) as [-> | ?]; [by left |].
        right. split; [done | set_solver].
Qed.

Lemma unique_from_NoDup seen urls : NoDup (unique_from seen urls).
Proof.
  revert seen. induction urls as [| v urls IH]; intros seen; simpl;
    [constructor |].
  destruct (bool_decide (v ∈ seen)); [done |]. constructor; [| done].
  rewrite unique_from_elem. set_solver.
Qed.

Lemma unique_from_sublist seen urls : unique_from seen urls `sublist_of` urls.
Proof.
  revert seen. induction urls as [| v urls IH]; intros seen; simpl;
    [constructor |].
  destruct (bool_decide (v ∈ seen)); [by apply sublist_cons | by apply sublist_skip].
Qed.

Lemma unique_from_filter seen u urls :
  unique_from ({[ u ]} ∪ seen) urls =
  unique_from seen (filter (λ v, v ≠ u) urls).
Proof.
  revert seen. induction urls as [| v urls IH]; intros seen; [done |].
  rewrite filter_cons. simpl. destruct (decide (v = u)) as [-> | Hne].
  - rewrite bool_decide_eq_true_2 by set_solver.
    rewrite decide_False by (intros H; by apply H). apply IH.
  - rewrite decide_True by done. simpl.
    destruct (bool_decide_reflect (v ∈ seen)) as [Hin | Hnin].
    + rewrite bool_decide_eq_true_2 by set_solver. apply IH.
    + rewrite bool_decide_eq_false_2 by set_solver. f_equal.
      rewrite <- IH. f_equal. set_solver.
Qed.

Lemma unique_from_id seen urls :
  NoDup urls → (∀ u, u ∈ urls → u ∉ seen) → unique_from seen urls = urls.
Proof.
  intros Hnd. revert seen. induction Hnd as [| v urls Hv _ IH]; intros seen Hs;
    [done |].
  simpl. rewrite bool_decide_eq_false_2 by (apply Hs; by left).
  f_equal. apply IH. intros u Hu.
  assert (u ∈ v :: urls) as Hu' by (by right). specialize (Hs u Hu').
  assert (u ≠ v) by (intros ->; done). set_solver.
Qed.

(** The list [main] keeps of its input. *)
Lemma unique_urls_facts (urls : list string) :
  NoDup (unique_urls urls) ∧
  (∀ u, u ∈ unique_urls urls ↔ u ∈ urls) ∧
  unique_urls urls `sublist_of` urls ∧
  (∀ u rest,
     unique_urls (u :: rest) = u :: unique_urls (filter (λ v, v ≠ u) rest)) ∧
  unique_urls (unique_urls urls) = unique_urls urls.
Proof.
  unfold unique_urls. split; [apply unique_from_NoDup |]. split.
  { intros u. rewrite unique_from_elem. set_solver. }
  split; [apply unique_from_sublist |]. split.
  - intros u rest. simpl. f_equal. by rewrite <- unique_from_filter.
  - apply unique_from_id; [apply unique_from_NoDup | set_solver].
Qed.

(** X13. The deduplication of [main] keeps the first occurrence of every
    URL and drops the later ones: the result has no repetition, holds
    exactly the URLs of the input, in the order of their first
    occurrences, and is left unchanged by a second pass. *)
Theorem unique_urls_spec (urls : list string) :
  NoDup (unique_urls urls) ∧
  (∀ u, u ∈ unique_urls urls ↔ u ∈ urls) ∧
  unique_urls urls `sublist_of` urls ∧
  (∀ u rest,
     unique_urls (u :: rest) = u :: unique_urls (filter (λ v, v ≠ u) rest)) ∧
  unique_urls (unique_urls urls) = unique_urls urls.
Proof. apply unique_urls_facts. Qed.


Section MainFacts.

Variable py_int : string → Z + string.
Variable send : transport.
Variable url_hostname : string → option string.
Variable url_netloc : string → string.
Variable fnmatch : string → string → bool.



End MainFacts.

(** ** Instances of the properties above *)

(** X5 at instances: [--concurrency] set to -1, to 0 and to 20. *)
Lemma process_urls_ends_witness :
  process_urls int_decimal (Build_Args 10 (-1) None) example_net init scenario
    = Raised (Exn ValueError "Semaphore initial value must be >= 0") ∧
  process_urls int_decimal (Build_Args 10 0 None) example_net init scenario
    = Hangs ∧
  process_urls int_decimal (Build_Args 10 0 None) example_net init []
    = Completed init ∧
  ∃ self', process_urls int_decimal default_args example_net init scenario
           = Completed self'.
Proof.
  split; [| split; [| split]].
  - apply (proj1 (process_urls_ends int_decimal (Build_Args 10 (-1) None)
                    example_net init scenario)).
    simpl. lia.
  - apply (proj1 (proj2 (process_urls_ends int_decimal (Build_Args 10 0 None)
                           example_net init scenario))); [reflexivity | done].
  - apply (proj1 (proj2 (proj2 (process_urls_ends int_decimal
                                  (Build_Args 10 0 None) example_net init
                                  scenario)))).
    reflexivity.
  - apply (proj2 (proj2 (proj2 (process_urls_ends int_decimal default_args
                                  example_net init scenario)))).
    simpl. lia.
Defined.

(** X7 at an instance: an address that does not connect, on HEAD and on
    the GET that follows. *)
Lemma head_raises_witness :
  requests example_net 0 (check_url int_decimal default_args "http://x")
    = [head_request default_args "http://x";
       get_request default_args "http://x"] ∧
  exec example_net 0 (check_url int_decimal default_args "http://x")
    = inr (error_result "http://x" "DNS/Connection: Cannot connect to host").
Proof.
  exact (head_raises int_decimal default_args example_net "http://x"
           (Exn ClientConnectorError "Cannot connect to host") eq_refl).
Defined.

(** X8 at an instance: the Success of the address answering 200 with 120
    bytes. *)
Lemma success_provenance_witness :
  ∃ resp size,
    settles_on default_args example_net "http://a" resp ∧
    size_of int_decimal (resp_content_length resp) = inr size ∧
    Result "http://a" (Some 200) (Some 120) None
      = Result "http://a" (Some (resp_status resp)) (Some (or_zero size)) None.
Proof.
  apply (success_provenance int_decimal default_args example_net "http://a").
  - reflexivity.
  - exists 200, 120. repeat split; reflexivity.
Defined.

(** X9 at an instance: the outcomes of the scenario, and the same in
    reverse. *)
Lemma aggregate_any_order_witness :
  let a := foldl (fold_result default_status_codes) init scenario_outcomes in
  let b := foldl (fold_result default_status_codes) init
                 (rev scenario_outcomes) in
  stats_total a = stats_total b ∧
  stats_valid a = stats_valid b ∧
  stats_errors a = stats_errors b ∧
  errors a ≡ₚ errors b ∧
  ∀ status size,
    bucket (results a) status size ≡ₚ bucket (results b) status size.
Proof.
  apply (aggregate_any_order default_status_codes init scenario_outcomes
           (rev scenario_outcomes)).
  apply Permutation_rev.
Defined.

(** X10 at an instance: the end-to-end scenario. *)
Lemma result_set_is_tidy_witness :
  stats_errors scenario_result = Z.of_nat (length (errors scenario_result)) ∧
  Forall (λ r, has_error r = true) (errors scenario_result) ∧
  (∀ status inner,
     results scenario_result !! status = Some inner →
     status ∈ included_codes int_decimal default_args ∧ inner ≠ ∅ ∧
     inner !! None = None ∧
     ∀ size urls, inner !! size = Some urls → urls ≠ []) ∧
  0 ≤ stats_valid scenario_result ∧
  stats_valid scenario_result + stats_errors scenario_result
    ≤ stats_total scenario_result.
Proof.
  apply (result_set_is_tidy int_decimal default_args example_net scenario
           scenario_result).
  vm_compute. reflexivity.
Defined.

(** X11 at an instance: a run on one URL, then a run on another. *)
Lemma runs_accumulate_witness :
  process_urls int_decimal default_args example_net init
    (["http://a"] ++ ["http://b"])
  = Completed (Checker (bucket_append ∅ 200 (Some 120) "http://a") [] 2 1 0).
Proof.
  apply (runs_accumulate int_decimal default_args example_net init
           (Checker (bucket_append ∅ 200 (Some 120) "http://a") [] 1 1 0)).
  - vm_compute. reflexivity.
  - vm_compute. reflexivity.
Defined.

(** ** The work of a batch *)

Section WorkFacts.

Variable body : string → io result.
Variable send : transport.

Lemma awaits_requests {A} (c : coro A) n :
  awaits send n c = length (requests send n c).
Proof.
  revert n. induction c as [a | rq k IH]; intros n; simpl; [done |].
  by rewrite IH.
Qed.

Lemma done_weight ts :
  forallb is_done ts = true → total_weight body send ts = O.
Proof.
  induction ts as [| t ts IH]; [done |]. simpl.
  intros [Ht Hts]%andb_prop. rewrite total_weight_cons, IH by done.
  by destruct t.
Qed.

Lemma spawn_weight urls :
  total_weight body send (spawn urls) =
  list_sum (map (λ u, 2 + length (requests send 0 (body u)))%nat urls).
Proof.
  induction urls as [| u urls IH]; [done |].
  cbn [spawn map]. fold (spawn urls). rewrite total_weight_cons, IH.
  simpl. rewrite awaits_requests. lia.
Qed.

(** X15. Whatever the order in which the tasks of a batch move, a run that
    finishes the batch has made the same moves: for each URL one
    acquisition of a permit, one release, and one reply for each request
    of its probe.  No probe is started twice and no request is awaited
    twice. *)
Theorem batch_work (K : Z) (urls : list string) (n : nat) (s : loop) :
  nsteps (step body send) n (Loop K (spawn urls)) s →
  forallb is_done (tasks s) = true →
  n = list_sum (map (λ u, 2 + length (requests send 0 (body u)))%nat urls).
Proof.
  intros Hn Hd. apply nsteps_bound in Hn. cbn [tasks] in Hn.
  rewrite (done_weight _ Hd), spawn_weight in Hn. lia.
Qed.

End WorkFacts.

(** X15 at an instance: one URL that times out on its HEAD, on one
    permit: an acquisition, a reply and a release. *)
Lemma batch_work_witness :
  3%nat =
  list_sum (map (λ u, 2 + length (requests example_net 0
                                    (check_url int_decimal default_args u)))%nat
                ["http://c"]).
Proof.
  apply (batch_work (check_url int_decimal default_args) example_net 1
           ["http://c"] 3
           (drive (check_url int_decimal default_args) example_net 3
              (Loop 1 (spawn ["http://c"])))).
  - eapply nsteps_l; [apply tick_step; reflexivity |].
    eapply nsteps_l; [apply tick_step; reflexivity |].
    eapply nsteps_l; [apply tick_step; reflexivity |].
    apply nsteps_O.
  - reflexivity.
Defined.
